(** * Boggle: the trie and the backtracking search of [boggle.js]

    A shallow embedding of the classes [TrieNode], [Trie] and [BoggleGame]
    and the properties of the word search that follow from the code.

    Conventions of the embedding.
    - JavaScript numbers that index the board are integers here ([Z]): the
      neighbour offsets of a cell go below zero before they are filtered.
      The offsets of a cell of the board that pass the filter are exact in
      the arithmetic of the code too.
    - A string is a sequence of one-byte characters ([string]), as the
      game reads them from its input; [split('')] gives its characters and
      [toLowerCase] lower-cases each of them.
    - [TrieNode] objects are mutable and referenced from their parent's
      [children] object, so they live in a store indexed by references;
      a trie carries the store of the nodes it owns.
    - Reading a property of [undefined] raises a [TypeError]; the recursion
      of [backTrack] is bounded by a fuel argument. *)

From Stdlib Require Import ZArith String Ascii List Lia.
From stdpp Require Import base option list gmap strings.

Local Open Scope Z_scope.

(** ** Results of fallible computations *)

Inductive result (A : Type) : Type :=
| Ok (a : A)
| TypeError
| OutOfFuel.
Arguments Ok {A} a.
Arguments TypeError {A}.
Arguments OutOfFuel {A}.

#[global] Instance result_ret : MRet result := fun _ a => Ok a.
#[global] Instance result_bind : MBind result := fun _ _ f r =>
  match r with
  | Ok a => f a
  | TypeError => TypeError
  | OutOfFuel => OutOfFuel
  end.

(** ** Strings *)

(** [String.prototype.toLowerCase] on a one-byte character: the capitals
    are [A]..[Z] (65..90) and, above the 7-bit characters, the letters
    192..214 and 216..222; their small letters are 32 further. *)
Definition lower_ascii (c : ascii) : ascii :=
  let n := nat_of_ascii c in
  if (((65 <=? n)%nat && (n <=? 90)%nat)
      || ((192 <=? n)%nat && (n <=? 214)%nat)
      || ((216 <=? n)%nat && (n <=? 222)%nat))%bool
  then ascii_of_nat (n + 32) else c.

Fixpoint toLowerCase (s : string) : string :=
  match s with
  | EmptyString => EmptyString
  | String c s' => String (lower_ascii c) (toLowerCase s')
  end.

(** [word.split('')]. *)
Definition split (s : string) : list ascii := list_ascii_of_string s.

(** [Array.prototype.indexOf]: the first index holding [x], or [-1]. *)
Fixpoint indexOf_from {A : Type} `{EqDecision A} (l : list A) (x : A) (k : Z) : Z :=
  match l with
  | [] => -1
  | y :: l' => if decide (y = x) then k else indexOf_from l' x (k + 1)
  end.

Definition indexOf {A : Type} `{EqDecision A} (l : list A) (x : A) : Z :=
  indexOf_from l x 0.

(** ** TrieNode *)

(** A reference to a [TrieNode] object of the store. *)
Abbreviation loc := nat (only parsing).

Record TrieNode : Type := mkTrieNode {
  parent : option loc;            (* [null] for the root *)
  children : gmap ascii loc;      (* the object used as a map from letters *)
  letter : string;
  hasChildren : bool;
  isTerminal : bool
}.

(** [new TrieNode(parent, letter)]. *)
Definition TrieNode_new (p : option loc) (l : string) : TrieNode :=
  {| parent := p; children := ∅; letter := l;
     hasChildren := false; isTerminal := false |}.

(** [hasChild(letter)]: [!!this.children[letter]]; a stored child is an
    object, hence truthy. *)
Definition hasChild (n : TrieNode) (l : ascii) : bool :=
  match children n !! l with
  | Some _ => true
  | None => false
  end.

(** [getChild(letter)]: the child or [undefined]. *)
Definition getChild (n : TrieNode) (l : ascii) : option loc :=
  children n !! l.

(** [setChild(letter, node)]. *)
Definition setChild (n : TrieNode) (l : ascii) (c : loc) : TrieNode :=
  {| parent := parent n; children := <[l := c]> (children n); letter := letter n;
     hasChildren := true; isTerminal := isTerminal n |}.

(** [node.isTerminal = true]. *)
Definition markTerminal (n : TrieNode) : TrieNode :=
  {| parent := parent n; children := children n; letter := letter n;
     hasChildren := hasChildren n; isTerminal := true |}.

(** ** The store of nodes and the trie *)

(** The store: node [r] is the [r]-th object allocated. *)
Abbreviation Store := (list TrieNode).

(** Reading through a variable holding a reference or [undefined]. *)
Definition deref (h : Store) (r : option loc) : result (loc * TrieNode) :=
  match r with
  | Some l =>
      match h !! l with
      | Some n => Ok (l, n)
      | None => TypeError
      end
  | None => TypeError
  end.
Arguments deref : simpl never.

Record Trie : Type := mkTrie {
  root : loc;
  nodes : Store
}.

(** The loop of [addWord] from the node [current] on, followed by
    [current.isTerminal = true]. *)
Fixpoint addWord_from (h : Store) (current : option loc) (letters : list ascii)
  : result Store :=
  match letters with
  | [] =>
      '(c, node) ← deref h current;
      Ok (<[c := markTerminal node]> h)
  | l :: rest =>
      '(c, node) ← deref h current;
      let h1 :=
        if negb (hasChild node l)
        then <[c := setChild node l (length h)]>
               (h ++ [TrieNode_new (Some c) (String l EmptyString)])
        else h in
      '(_, node1) ← deref h1 current;
      addWord_from h1 (getChild node1 l) rest
  end.

Definition addWord (t : Trie) (word : string) : result Trie :=
  let word := toLowerCase word in
  let current := Some (root t) in
  let letters := split word in
  h ← addWord_from (nodes t) current letters;
  Ok {| root := root t; nodes := h |}.

(** The loop of [hasSubString] from the node [current] on; [isTerminal] is
    [false] when the caller leaves the argument out. *)
Fixpoint hasSubString_from (h : Store) (current : option loc) (letters : list ascii)
    (terminal : bool) : result bool :=
  match letters with
  | [] =>
      if terminal
      then '(_, node) ← deref h current; Ok (isTerminal node)
      else Ok true
  | l :: rest =>
      '(_, node) ← deref h current;
      if negb (hasChild node l) then Ok false
      else hasSubString_from h (getChild node l) rest terminal
  end.

Definition hasSubString (t : Trie) (word : string) (terminal : bool) : result bool :=
  let word := toLowerCase word in
  let current := Some (root t) in
  let letters := split word in
  hasSubString_from (nodes t) current letters terminal.

(** [words.forEach(w => this.addWord(w))]. *)
Fixpoint addWords (t : Trie) (ws : list string) : result Trie :=
  match ws with
  | [] => Ok t
  | w :: ws' => t' ← addWord t w; addWords t' ws'
  end.

(** [new Trie(words)]. *)
Definition Trie_new (ws : list string) : result Trie :=
  addWords {| root := 0%nat; nodes := [TrieNode_new None "root"] |} ws.

(** ** BoggleGame *)

Record BoggleGame : Type := mkBoggleGame {
  width : Z;
  height : Z;
  board : list string;
  dictionary : list string;
  trie : Trie
}.

(** [new BoggleGame(width, height, board, dictionary)]. *)
Definition BoggleGame_new (w h : Z) (b d : list string) : result BoggleGame :=
  t ← Trie_new d;
  Ok {| width := w; height := h; board := b; dictionary := d; trie := t |}.

Definition isValidCell (g : BoggleGame) (i : Z) : bool :=
  (0 <=? i) && (i <? Z.of_nat (length (board g))).

Definition getAdjacent (g : BoggleGame) (i : Z) : list Z :=
  List.filter (fun j => isValidCell g j)
    [ i - (width g + 1);
      i - width g;
      i - (width g - 1);
      i - 1;
      i + 1;
      i + (width g - 1);
      i + width g;
      i + (width g + 1) ].

(** [board[i]]: [None] stands for [undefined]. *)
Definition board_at (b : list string) (i : Z) : option string :=
  if 0 <=? i then b !! Z.to_nat i else None.

(** [currentWord + nextLetter], where [undefined] is converted to a string. *)
Definition concat_letter (w : string) (l : option string) : string :=
  (w ++ match l with Some s => s | None => "undefined" end)%string.

(** ** The memory of a search

    [backTrack] runs on the game [this], on the array [path] that all the
    frames of one search share, and on the array [words] that the callback
    of [solve] closes over. *)

Record Mem : Type := mkMem {
  this : BoggleGame;
  path : list Z;
  words : list string
}.

Definition M (A : Type) : Type := Mem -> result (A * Mem).

#[global] Instance M_ret : MRet M := fun _ a m => Ok (a, m).
#[global] Instance M_bind : MBind M := fun _ _ f c m =>
  match c m with
  | Ok (a, m') => f a m'
  | TypeError => TypeError
  | OutOfFuel => OutOfFuel
  end.

Definition skip : M unit := mret tt.

Definition outOfFuel {A : Type} : M A := fun _ => OutOfFuel.

(** A call of a method of the trie that only returns a value. *)
Definition this_trie_hasSubString (word : string) (terminal : bool) : M bool :=
  fun m =>
    match hasSubString (trie (this m)) word terminal with
    | Ok b => Ok (b, m)
    | TypeError => TypeError
    | OutOfFuel => OutOfFuel
    end.

Definition this_getAdjacent (i : Z) : M (list Z) :=
  fun m => Ok (getAdjacent (this m) i, m).

Definition this_board_at (i : Z) : M (option string) :=
  fun m => Ok (board_at (board (this m)) i, m).

Definition this_board : M (list string) :=
  fun m => Ok (board (this m), m).

Definition path_indexOf (c : Z) : M Z :=
  fun m => Ok (indexOf (path m) c, m).

Definition path_push (c : Z) : M unit :=
  fun m => Ok (tt, {| this := this m; path := path m ++ [c]; words := words m |}).

Definition path_pop : M unit :=
  fun m => Ok (tt, {| this := this m; path := removelast (path m); words := words m |}).

Definition path_new : M unit :=
  fun m => Ok (tt, {| this := this m; path := []; words := words m |}).

Definition words_new : M unit :=
  fun m => Ok (tt, {| this := this m; path := path m; words := [] |}).

Definition words_indexOf (w : string) : M Z :=
  fun m => Ok (indexOf (words m) w, m).

Definition words_push (w : string) : M unit :=
  fun m => Ok (tt, {| this := this m; path := path m; words := words m ++ [w] |}).

Definition words_get : M (list string) :=
  fun m => Ok (words m, m).

(** [for (const x of l) body]; a [continue] ends the body. *)
Fixpoint forOf {A : Type} (l : list A) (body : A -> M unit) : M unit :=
  match l with
  | [] => skip
  | x :: l' => body x ;; forOf l' body
  end.

(** [backTrack(currentWord, currentCell, path, depth, foundWord)]; the
    argument [path] is the array of the memory. *)
Fixpoint backTrack (fuel : nat) (currentWord : string) (currentCell : Z) (depth : Z)
    (foundWord : string -> M unit) : M unit :=
  match fuel with
  | O => outOfFuel
  | S fuel' =>
      isWord ← (if (3 <=? String.length currentWord)%nat
                then this_trie_hasSubString currentWord true
                else mret false);
      (if isWord : bool then foundWord currentWord else skip);;
      let depth := depth + 1 in
      adjacent ← this_getAdjacent currentCell;
      forOf adjacent (fun nextCell =>
        visited ← path_indexOf nextCell;
        if negb (visited =? -1) then skip
        else
          nextLetter ← this_board_at nextCell;
          let nextWord := concat_letter currentWord nextLetter in
          isPrefix ← this_trie_hasSubString nextWord false;
          if negb isPrefix then skip
          else
            path_push nextCell;;
            backTrack fuel' nextWord nextCell depth foundWord;;
            path_pop)
  end.

(** The callback [foundWord] of [solve]. *)
Definition foundWord (word : string) : M unit :=
  seen ← words_indexOf word;
  if negb (seen =? -1) then skip
  else words_push word.

(** [this.board.forEach((letter, i) => ...)]. *)
Definition indexed (b : list string) : list (string * Z) :=
  imap (fun i l => (l, Z.of_nat i)) b.

(** [solve()] with the recursion bounded by [fuel]. *)
Definition solve_fuel (fuel : nat) : M (list string) :=
  words_new;;
  b ← this_board;
  forOf (indexed b) (fun '(l, i) =>
    path_new;;
    backTrack fuel l i 0 foundWord);;
  words_get.

(** [solve()]: a frame pushes a cell that is on the board and not on the
    path, so no search is deeper than the board is long plus one. *)
Definition solve : M (list string) :=
  fun m => solve_fuel (S (length (board (this m)))) m.

(** The value a computation returns. *)
Definition returned {A : Type} (r : result (A * Mem)) : result A :=
  match r with
  | Ok (a, _) => Ok a
  | TypeError => TypeError
  | OutOfFuel => OutOfFuel
  end.

(** [new BoggleGame(width, height, board, dictionary).solve()], as
    [processData] calls it. *)
Definition play (w h : Z) (b d : list string) : result (list string) :=
  g ← BoggleGame_new w h b d;
  returned (solve {| this := g; path := []; words := [] |}).

(** * The vocabulary of the properties *)

(** ** Stores *)

(** [h'] extends [h]: every node keeps its children and its terminal mark. *)
Definition ext (h h' : Store) : Prop :=
  forall r n, h !! r = Some n ->
    exists n', h' !! r = Some n' /\ children n ⊆ children n' /\
               (isTerminal n = true -> isTerminal n' = true).

(** The invariant of a store built by [addWord] only: the node [0] is the
    root, [lbl r] is the sequence of letters that leads from the root to the
    node [r], and a terminal node spells a word of [ws]. *)
Record trie_inv (h : Store) (lbl : loc -> list ascii) (ws : list string) : Prop := {
  inv_root : lbl 0%nat = [];
  inv_nonempty : (0 < length h)%nat;
  inv_child : forall r n l c, h !! r = Some n -> children n !! l = Some c ->
    (0 < c < length h)%nat /\ lbl c = lbl r ++ [l];
  inv_term : forall r n, h !! r = Some n -> isTerminal n = true ->
    exists w, In w ws /\ split (toLowerCase w) = lbl r
}.

(** The store after [current.setChild(letter, new TrieNode(current, letter))]. *)
Definition grow (h : Store) (c : loc) (n : TrieNode) (l : ascii) : Store :=
  <[c := setChild n l (length h)]> (h ++ [TrieNode_new (Some c) (String l EmptyString)]).

(** The letters that lead to each node of that store. *)
Definition grow_lbl (h : Store) (lbl : loc -> list ascii) (c : loc) (l : ascii)
  : loc -> list ascii :=
  fun r => if decide (r = length h) then lbl c ++ [l] else lbl r.

(** [built t ws]: [t] is a trie made by [new Trie], and [ws] lists the words
    passed to its [addWord] since then, oldest first. *)
Inductive built : Trie -> list string -> Prop :=
| built_new : built {| root := 0%nat; nodes := [TrieNode_new None "root"] |} []
| built_add t ws w t' :
    built t ws -> addWord t w = Ok t' -> built t' (ws ++ [w]).

(** ** Memories *)

(** [post m m']: the memory [m'] that a search started in [m] leaves: the
    game and the path are those of [m], and [words] has grown at its end by
    distinct whole words of the trie with three letters or more. *)
Record post (m m' : Mem) : Prop := {
  post_this : this m' = this m;
  post_path : path m' = path m;
  post_grow : exists new, words m' = words m ++ new;
  post_nodup : List.NoDup (words m) -> List.NoDup (words m');
  post_words : forall x, In x (words m') ->
    In x (words m) \/
    ((3 <= String.length x)%nat /\ hasSubString (trie (this m)) x true = Ok true)
}.

(** The body of the loop of [backTrack], with [rec] for the recursive call. *)
Definition visit (rec : string -> Z -> Z -> (string -> M unit) -> M unit)
    (currentWord : string) (depth : Z) (fw : string -> M unit) (nextCell : Z) : M unit :=
  visited ← path_indexOf nextCell;
  if negb (visited =? -1) then skip
  else
    nextLetter ← this_board_at nextCell;
    let nextWord := concat_letter currentWord nextLetter in
    isPrefix ← this_trie_hasSubString nextWord false;
    if negb isPrefix then skip
    else
      path_push nextCell;;
      rec nextWord nextCell depth fw;;
      path_pop.

(** The test of [backTrack] on the current word. *)
Definition isWordHere (currentWord : string) : M bool :=
  if (3 <=? String.length currentWord)%nat
  then this_trie_hasSubString currentWord true
  else mret false.

(** The memory after [path.push(x)] and after [path.pop()]. *)
Definition pushed (m : Mem) (x : Z) : Mem :=
  {| this := this m; path := path m ++ [x]; words := words m |}.

Definition popped (m : Mem) : Mem :=
  {| this := this m; path := removelast (path m); words := words m |}.

(** The cells of the board, and how many of them are not on a path. *)
Definition cells (g : BoggleGame) : list Z :=
  map Z.of_nat (seq 0 (length (board g))).

Definition unvisited (g : BoggleGame) (p : list Z) : nat :=
  length (List.filter (fun c => indexOf p c =? -1) (cells g)).

(** The body of the [forEach] of [solve]. *)
Definition start (fuel : nat) : string * Z -> M unit :=
  fun '(l, i) => path_new;; backTrack fuel l i 0 foundWord.
Arguments start : simpl never.

(** The memory with a new array [path], and with a new array [words]. *)
Definition cleared (m : Mem) : Mem :=
  {| this := this m; path := []; words := words m |}.

Definition emptied (m : Mem) : Mem :=
  {| this := this m; path := path m; words := [] |}.

(** ** Boards, games and statements of the claims *)

(** The statement that a word returned is the lower-casing of an entry
    of the dictionary. *)
Definition returns_lowercased_entries : Prop :=
  forall (w h : Z) (b d : list string) (ws : list string),
    play w h b d = Ok ws ->
    forall x, In x ws -> exists e, In e d /\ x = toLowerCase e.

(** The first scenario: a 2x2 board and four words. *)
Definition scenario1 : result (list string) :=
  play 2 2 ["a"; "b"; "c"; "d"] ["ab"; "abc"; "abd"; "xyz"].

(** The letters of a sequence of cells, as [backTrack] appends them. *)
Fixpoint spell (b : list string) (cs : list Z) : string :=
  match cs with
  | [] => EmptyString
  | c :: cs' => concat_letter EmptyString (board_at b c) ++ spell b cs'
  end.

(** One search of [solve]: [backTrack] from the cell [i] with the path [p],
    and the words it collects. *)
Definition search_from (w h : Z) (b d : list string) (i : Z) (p : list Z)
  : result (list string) :=
  g ← BoggleGame_new w h b d;
  returned ((backTrack (S (length b)) (concat_letter EmptyString (board_at b i)) i 0
               foundWord;; words_get)
            {| this := g; path := p; words := [] |}).

(** The 2x2 board a, b over c, d. *)
Definition abcd : list string := ["a"; "b"; "c"; "d"].

(** A 3x3 board; its trie holds no word. *)
Definition board3x3 : BoggleGame :=
  {| width := 3; height := 3;
     board := ["a"; "b"; "c"; "d"; "e"; "f"; "g"; "h"; "i"];
     dictionary := []; trie := {| root := 0%nat; nodes := [TrieNode_new None "root"] |} |}.

(** A column of two cells, the first with two letters. *)
Definition column_ab_c : result BoggleGame := BoggleGame_new 1 2 ["ab"; "c"] ["abab"].

(** ** The fields of the nodes *)

(** What [addWord] keeps true of the fields of the nodes: the root has no
    parent; any other node is the child of its [parent] under the letter it
    holds in [letter]; [hasChildren] tells whether [children] holds a key;
    and a node other than the root lies on the way to a word of [ws]. *)
Record node_inv (h : Store) (lbl : loc -> list ascii) (ws : list string) : Prop := {
  ninv_root : exists n0, h !! 0%nat = Some n0 /\ parent n0 = None /\ letter n0 = "root";
  ninv_parent : forall r n, h !! r = Some n -> r <> 0%nat ->
    exists p pn l, parent n = Some p /\ h !! p = Some pn /\
                   children pn !! l = Some r /\ letter n = String l EmptyString;
  ninv_flag : forall r n, h !! r = Some n ->
    (hasChildren n = true <-> children n <> ∅);
  ninv_cover : forall r n, h !! r = Some n -> r <> 0%nat ->
    exists w s, In w ws /\ split (toLowerCase w) = lbl r ++ s
}.

(** ** Walks on the board *)

(** [chain g c cs]: each cell of [cs] is a neighbour of the one before it,
    the first of them a neighbour of [c]. *)
Fixpoint chain (g : BoggleGame) (c : Z) (cs : list Z) : Prop :=
  match cs with
  | [] => True
  | x :: cs' => In x (getAdjacent g c) /\ chain g x cs'
  end.

(** [trail g c p cs]: the cells [cs] that the frames of [backTrack] push one
    after the other, from the frame of the cell [c] with the path [p]. *)
Fixpoint trail (g : BoggleGame) (c : Z) (p : list Z) (cs : list Z) : Prop :=
  match cs with
  | [] => True
  | x :: cs' => In x (getAdjacent g c) /\ ~ In x p /\ trail g x (p ++ [x]) cs'
  end.

(** [traced g x]: the word [x] is spelled by a cell of the board followed
    by a chain of neighbours in which no cell comes twice. *)
Definition traced (g : BoggleGame) (x : string) : Prop :=
  exists i cs, isValidCell g i = true /\ chain g i cs /\ List.NoDup cs /\
               x = spell (board g) (i :: cs).

(** The filter of [processData] on the words of the dictionary:
    [filter(word => word.length >= 3)]. *)
Definition longEnough (d : list string) : list string :=
  List.filter (fun word => (3 <=? String.length word)%nat) d.

(** ** Games that search alike *)

(** Two tries that answer every query alike. *)
Definition same_answers (t t' : Trie) : Prop :=
  forall q b, hasSubString t q b = hasSubString t' q b.

(** Two memories with the same width, board, path and words, and with
    tries that answer alike. *)
Definition alike (m m' : Mem) : Prop :=
  width (this m) = width (this m') /\ board (this m) = board (this m') /\
  same_answers (trie (this m)) (trie (this m')) /\
  path m = path m' /\ words m = words m'.

(** Two results with the same value, or the same error, in memories alike. *)
Definition alike_result {A : Type} (r r' : result (A * Mem)) : Prop :=
  match r, r' with
  | Ok (a, m), Ok (a', m') => a = a' /\ alike m m'
  | TypeError, TypeError => True
  | OutOfFuel, OutOfFuel => True
  | _, _ => False
  end.

(** * Properties of the trie *)

Section TrieFacts.

Implicit Types (h : Store) (r c : loc) (n : TrieNode) (ls : list ascii).

Lemma deref_Some h c : forall c' n,
  deref h (Some c) = Ok (c', n) <-> c' = c /\ h !! c = Some n.
Proof.
  intros c' n. unfold deref. destruct (h !! c) as [n0|]; split.
  - intros [= <- <-]. auto.
  - intros [-> [= ->]]. reflexivity.
  - discriminate.
  - intros [_ H]. discriminate.
Qed.

Lemma deref_lookup h c n : h !! c = Some n -> deref h (Some c) = Ok (c, n).
Proof. intros H. apply deref_Some. auto. Qed.

Lemma hasChild_true n l : hasChild n l = true <-> exists c, children n !! l = Some c.
Proof.
  unfold hasChild. destruct (children n !! l) as [c|]; split; try eauto; try discriminate.
  intros [c H]. discriminate.
Qed.

Lemma ext_trans h1 h2 h3 : ext h1 h2 -> ext h2 h3 -> ext h1 h3.
Proof.
  intros H12 H23 r n H.
  destruct (H12 r n H) as (n2 & H2 & Hc2 & Ht2).
  destruct (H23 r n2 H2) as (n3 & H3 & Hc3 & Ht3).
  exists n3. split; [assumption|]. split; [etrans; eassumption | auto].
Qed.

(** A query answered [true] stays so in an extension of the store. *)
Lemma hasSubString_from_ext h h' ls : forall cur t,
  ext h h' ->
  hasSubString_from h cur ls t = Ok true ->
  hasSubString_from h' cur ls t = Ok true.
Proof.
  induction ls as [|l rest IH]; intros cur t He H; simpl in *.
  - destruct t; [|reflexivity].
    destruct cur as [c|]; [|discriminate].
    destruct (deref h (Some c)) as [[c' n]| |] eqn:Hd; try discriminate.
    apply deref_Some in Hd as [-> Hn]. simpl in H. injection H as Ht.
    destruct (He c n Hn) as (n' & Hn' & _ & Ht').
    rewrite (deref_lookup _ _ _ Hn'). simpl. f_equal. auto.
  - destruct cur as [c|]; [|discriminate].
    destruct (deref h (Some c)) as [[c' n]| |] eqn:Hd; try discriminate.
    apply deref_Some in Hd as [-> Hn]. simpl in H.
    destruct (hasChild n l) eqn:Hc; simpl in H; [|discriminate].
    apply hasChild_true in Hc as [c1 Hc1].
    destruct (He c n Hn) as (n' & Hn' & Hsub & _).
    rewrite (deref_lookup _ _ _ Hn'). simpl.
    assert (Hc1' : children n' !! l = Some c1) by (eapply lookup_weaken; eassumption).
    unfold hasChild, getChild in *. rewrite Hc1'. rewrite Hc1 in H. simpl.
    apply IH; assumption.
Qed.

(** A word of the trie has all its prefixes in the trie. *)
Lemma hasSubString_from_prefix h ls1 ls2 : forall cur t,
  hasSubString_from h cur (ls1 ++ ls2) t = Ok true ->
  hasSubString_from h cur ls1 false = Ok true.
Proof.
  induction ls1 as [|l rest IH]; intros cur t H; simpl in *; [reflexivity|].
  destruct (deref h cur) as [[c' n]| |] eqn:Hd; try discriminate. simpl in *.
  destruct (hasChild n l); simpl in *; [|discriminate].
  eapply IH; eassumption.
Qed.

Lemma trie_inv_mark h lbl ws w c n :
  trie_inv h lbl ws -> h !! c = Some n -> split (toLowerCase w) = lbl c ->
  trie_inv (<[c := markTerminal n]> h) lbl (ws ++ [w]).
Proof.
  intros [Hr Hne Hch Ht] Hn Hw.
  assert (Hlt : (c < length h)%nat) by (eapply lookup_lt_Some; eassumption).
  split; [assumption | rewrite length_insert; assumption | |].
  - intros r n0 l c0 Hn0 Hc0. rewrite length_insert.
    destruct (decide (r = c)) as [->|Hrc].
    + rewrite list_lookup_insert_eq in Hn0 by assumption.
      injection Hn0 as <-. simpl in Hc0. eapply Hch; eassumption.
    + rewrite list_lookup_insert_ne in Hn0 by congruence. eapply Hch; eassumption.
  - intros r n0 Hn0 Ht0.
    destruct (decide (r = c)) as [->|Hrc].
    + exists w. split; [apply in_or_app; right; left; reflexivity | assumption].
    + rewrite list_lookup_insert_ne in Hn0 by congruence.
      destruct (Ht r n0 Hn0 Ht0) as (w0 & Hin & Hs).
      exists w0. split; [apply in_or_app; left; assumption | assumption].
Qed.

Lemma ext_mark h c n : h !! c = Some n -> ext h (<[c := markTerminal n]> h).
Proof.
  intros Hn r n0 Hn0.
  assert (Hlt : (c < length h)%nat) by (eapply lookup_lt_Some; eassumption).
  destruct (decide (r = c)) as [->|Hrc].
  - exists (markTerminal n). rewrite list_lookup_insert_eq by assumption.
    assert (n0 = n) as -> by congruence. simpl. auto.
  - exists n0. rewrite list_lookup_insert_ne by congruence. auto.
Qed.

Lemma grow_length h c n l : length (grow h c n l) = S (length h).
Proof. unfold grow. rewrite length_insert, length_app. simpl. lia. Qed.

Lemma grow_lookup h c n l r n0 :
  h !! c = Some n -> grow h c n l !! r = Some n0 ->
  (r = c /\ n0 = setChild n l (length h)) \/
  (r <> c /\ h !! r = Some n0) \/
  (r = length h /\ n0 = TrieNode_new (Some c) (String l EmptyString)).
Proof.
  intros Hn H. unfold grow in H.
  assert (Hlt : (c < length h)%nat) by (eapply lookup_lt_Some; eassumption).
  destruct (decide (r = c)) as [->|Hrc].
  - left. rewrite list_lookup_insert_eq in H by (rewrite length_app; simpl; lia).
    split; congruence.
  - right. rewrite list_lookup_insert_ne in H by congruence.
    destruct (decide (r < length h)%nat) as [Hr|Hr].
    + left. rewrite lookup_app_l in H by assumption. auto.
    + right. rewrite lookup_app_r in H by lia.
      destruct (r - length h)%nat as [|k] eqn:Hk; simpl in H; [|discriminate].
      split; [lia | congruence].
Qed.

Lemma grow_lookup_c h c n l :
  h !! c = Some n -> grow h c n l !! c = Some (setChild n l (length h)).
Proof.
  intros Hn. unfold grow.
  assert (Hlt : (c < length h)%nat) by (eapply lookup_lt_Some; eassumption).
  apply list_lookup_insert_eq. rewrite length_app. simpl. lia.
Qed.

Lemma ext_grow h c n l :
  h !! c = Some n -> children n !! l = None -> ext h (grow h c n l).
Proof.
  intros Hn Hl r n0 Hn0.
  destruct (decide (r = c)) as [->|Hrc].
  - exists (setChild n l (length h)). rewrite grow_lookup_c by assumption.
    assert (n0 = n) as -> by congruence. simpl.
    split; [reflexivity|]. split; [apply insert_subseteq; assumption | auto].
  - exists n0. unfold grow. rewrite list_lookup_insert_ne by congruence.
    rewrite lookup_app_l by (eapply lookup_lt_Some; eassumption). auto.
Qed.

Lemma trie_inv_grow h lbl ws c n l :
  trie_inv h lbl ws -> h !! c = Some n -> children n !! l = None ->
  trie_inv (grow h c n l) (grow_lbl h lbl c l) ws.
Proof.
  intros [Hr Hne Hch Ht] Hn Hl.
  assert (Hlt : (c < length h)%nat) by (eapply lookup_lt_Some; eassumption).
  assert (Hold : forall r, (r < length h)%nat -> grow_lbl h lbl c l r = lbl r).
  { intros r Hrlt. unfold grow_lbl. destruct (decide (r = length h)); [lia | reflexivity]. }
  assert (Hnew : grow_lbl h lbl c l (length h) = lbl c ++ [l]).
  { unfold grow_lbl. destruct (decide (length h = length h)); [reflexivity | contradiction]. }
  split.
  - rewrite Hold by assumption. assumption.
  - rewrite grow_length. lia.
  - intros r n0 l0 c0 Hn0 Hc0. rewrite grow_length.
    destruct (grow_lookup _ _ _ _ _ _ Hn Hn0) as [[-> ->] | [[Hrc Hn0'] | [-> ->]]].
    + simpl in Hc0. destruct (decide (l = l0)) as [->|Hll].
      * rewrite lookup_insert_eq in Hc0. injection Hc0 as <-.
        rewrite Hnew, Hold by assumption. split; [lia | reflexivity].
      * rewrite lookup_insert_ne in Hc0 by assumption.
        destruct (Hch _ _ _ _ Hn Hc0) as [Hb He].
        rewrite !Hold by lia. split; [lia | assumption].
    + destruct (Hch _ _ _ _ Hn0' Hc0) as [Hb He].
      assert ((r < length h)%nat) by (eapply lookup_lt_Some; eassumption).
      rewrite !Hold by lia. split; [lia | assumption].
    + simpl in Hc0. rewrite lookup_empty in Hc0. discriminate.
  - intros r n0 Hn0 Ht0.
    destruct (grow_lookup _ _ _ _ _ _ Hn Hn0) as [[-> ->] | [[Hrc Hn0'] | [-> ->]]].
    + simpl in Ht0. rewrite Hold by assumption. eapply Ht; eassumption.
    + assert ((r < length h)%nat) by (eapply lookup_lt_Some; eassumption).
      rewrite Hold by assumption. eapply Ht; eassumption.
    + simpl in Ht0. discriminate.
Qed.

(** [hasSubString] steps through an existing child. *)
Lemma hasSubString_from_step h c n l c1 rest t :
  h !! c = Some n -> children n !! l = Some c1 ->
  hasSubString_from h (Some c) (l :: rest) t = hasSubString_from h (Some c1) rest t.
Proof.
  intros Hn Hc. simpl. rewrite (deref_lookup _ _ _ Hn). simpl.
  unfold hasChild, getChild. rewrite Hc. reflexivity.
Qed.

(** [addWord] succeeds on a store that satisfies the invariant, keeps the
    invariant, only extends the store, and makes the word a whole word of the
    trie. *)
Lemma addWord_from_spec ls : forall h c lbl ws w,
  trie_inv h lbl ws -> (c < length h)%nat ->
  split (toLowerCase w) = lbl c ++ ls ->
  exists h' lbl',
    addWord_from h (Some c) ls = Ok h' /\
    trie_inv h' lbl' (ws ++ [w]) /\ ext h h' /\
    hasSubString_from h' (Some c) ls true = Ok true.
Proof.
  induction ls as [|l rest IH]; intros h c lbl ws w Hinv Hlt Hw.
  - destruct (lookup_lt_is_Some_2 h c Hlt) as [n Hn].
    exists (<[c := markTerminal n]> h), lbl. simpl.
    rewrite (deref_lookup _ _ _ Hn). simpl.
    rewrite app_nil_r in Hw.
    split; [reflexivity|]. split; [apply trie_inv_mark; assumption|].
    split; [apply ext_mark; assumption|].
    assert (Hn' : <[c := markTerminal n]> h !! c = Some (markTerminal n))
      by (apply list_lookup_insert_eq; assumption).
    rewrite (deref_lookup _ _ _ Hn'). reflexivity.
  - destruct (lookup_lt_is_Some_2 h c Hlt) as [n Hn].
    destruct (children n !! l) as [c1|] eqn:Hc.
    + assert (Hhc : hasChild n l = true) by (unfold hasChild; rewrite Hc; reflexivity).
      destruct (inv_child _ _ _ Hinv _ _ _ _ Hn Hc) as [Hb Hl].
      destruct (IH h c1 lbl ws w Hinv ltac:(lia)) as (h' & lbl' & Ha & Hi & He & Hq).
      { rewrite Hl, <- app_assoc. assumption. }
      exists h', lbl'. split; [|split; [assumption|split; [assumption|]]].
      * simpl. rewrite (deref_lookup _ _ _ Hn). simpl. rewrite Hhc. simpl.
        rewrite (deref_lookup _ _ _ Hn). simpl. unfold getChild. rewrite Hc.
        assumption.
      * destruct (He c n Hn) as (n' & Hn' & Hsub & _).
        erewrite hasSubString_from_step; [eassumption | eassumption |].
        eapply lookup_weaken; eassumption.
    + assert (Hhc : hasChild n l = false) by (unfold hasChild; rewrite Hc; reflexivity).
      pose proof (trie_inv_grow h lbl ws c n l Hinv Hn Hc) as Hinv1.
      pose proof (ext_grow h c n l Hn Hc) as He1.
      destruct (IH (grow h c n l) (length h) (grow_lbl h lbl c l) ws w Hinv1)
        as (h' & lbl' & Ha & Hi & He & Hq).
      { rewrite grow_length. lia. }
      { unfold grow_lbl. destruct (decide (length h = length h)); [|contradiction].
        rewrite <- app_assoc. assumption. }
      exists h', lbl'. split; [|split; [assumption|split; [eapply ext_trans; eassumption|]]].
      * simpl. rewrite (deref_lookup _ _ _ Hn). simpl. rewrite Hhc. simpl.
        fold (grow h c n l).
        rewrite (deref_lookup _ _ _ (grow_lookup_c h c n l Hn)). simpl.
        unfold getChild. simpl. rewrite lookup_insert_eq. assumption.
      * destruct (He c _ (grow_lookup_c h c n l Hn)) as (n' & Hn' & Hsub & _).
        erewrite hasSubString_from_step; [eassumption | eassumption |].
        eapply lookup_weaken; [|eassumption]. simpl. apply lookup_insert_eq.
Qed.

(** A query never fails on a store that satisfies the invariant. *)
Lemma hasSubString_from_total h lbl ws ls : forall c t,
  trie_inv h lbl ws -> (c < length h)%nat ->
  exists b, hasSubString_from h (Some c) ls t = Ok b.
Proof.
  induction ls as [|l rest IH]; intros c t Hinv Hlt;
    destruct (lookup_lt_is_Some_2 h c Hlt) as [n Hn]; simpl.
  - destruct t; [|eauto]. rewrite (deref_lookup _ _ _ Hn). simpl. eauto.
  - rewrite (deref_lookup _ _ _ Hn). simpl.
    unfold hasChild, getChild. destruct (children n !! l) as [c1|] eqn:Hc; simpl; [|eauto].
    apply IH; [assumption|]. destruct (inv_child _ _ _ Hinv _ _ _ _ Hn Hc). lia.
Qed.

(** A whole word found in the trie was passed to [addWord]. *)
Lemma hasSubString_from_sound h lbl ws ls : forall c,
  trie_inv h lbl ws ->
  hasSubString_from h (Some c) ls true = Ok true ->
  exists w, In w ws /\ split (toLowerCase w) = lbl c ++ ls.
Proof.
  induction ls as [|l rest IH]; intros c Hinv H; simpl in H;
    destruct (deref h (Some c)) as [[c' n]| |] eqn:Hd; try discriminate;
    apply deref_Some in Hd as [-> Hn]; simpl in H.
  - injection H as Ht. rewrite app_nil_r. eapply inv_term; eassumption.
  - unfold hasChild, getChild in H.
    destruct (children n !! l) as [c1|] eqn:Hc; simpl in H; [|discriminate].
    destruct (inv_child _ _ _ Hinv _ _ _ _ Hn Hc) as [_ Hl].
    destruct (IH c1 Hinv H) as (w & Hin & Hw).
    exists w. split; [assumption|]. rewrite Hw, Hl, <- app_assoc. reflexivity.
Qed.

End TrieFacts.

(** ** Strings and their letters *)

Lemma toLowerCase_app (a b : string) :
  toLowerCase (a ++ b) = (toLowerCase a ++ toLowerCase b)%string.
Proof. induction a as [|x a IH]; simpl; [reflexivity | rewrite IH; reflexivity]. Qed.

Lemma split_app (a b : string) : split (a ++ b) = split a ++ split b.
Proof. induction a as [|x a IH]; simpl; [reflexivity | f_equal; apply IH]. Qed.

Lemma split_inj (a b : string) : split a = split b -> a = b.
Proof.
  revert b. induction a as [|x a IH]; intros [|y b] H; simpl in H;
    try discriminate; [reflexivity|].
  injection H as -> H. f_equal. apply IH. assumption.
Qed.

(** ** Tries built through the interface *)

Lemma trie_inv_new : trie_inv [TrieNode_new None "root"] (fun _ => []) [].
Proof.
  split; [reflexivity | simpl; lia | |].
  - intros [|r] n l c Hn Hc; simpl in Hn; [|discriminate].
    injection Hn as <-. simpl in Hc. rewrite lookup_empty in Hc. discriminate.
  - intros [|r] n Hn Ht; simpl in Hn; [|discriminate].
    injection Hn as <-. simpl in Ht. discriminate.
Qed.

(** [addWord] on a trie whose store satisfies the invariant. *)
Lemma addWord_spec t lbl ws w :
  root t = 0%nat -> trie_inv (nodes t) lbl ws ->
  exists t' lbl',
    addWord t w = Ok t' /\ root t' = 0%nat /\
    trie_inv (nodes t') lbl' (ws ++ [w]) /\ ext (nodes t) (nodes t') /\
    hasSubString t' w true = Ok true.
Proof.
  intros Hroot Hinv.
  destruct (addWord_from_spec (split (toLowerCase w)) (nodes t) 0%nat lbl ws w Hinv)
    as (h' & lbl' & Ha & Hi & He & Hq).
  { apply (inv_nonempty _ _ _ Hinv). }
  { rewrite (inv_root _ _ _ Hinv). reflexivity. }
  exists {| root := root t; nodes := h' |}, lbl'.
  unfold addWord, hasSubString. rewrite Hroot. simpl. rewrite Ha. simpl.
  split; [reflexivity|]. split; [reflexivity|]. auto.
Qed.

Lemma built_inv t ws : built t ws -> root t = 0%nat /\ exists lbl, trie_inv (nodes t) lbl ws.
Proof.
  induction 1 as [|t ws w t' Hb [Hroot [lbl Hinv]] Ha].
  - split; [reflexivity|]. eexists. apply trie_inv_new.
  - destruct (addWord_spec t lbl ws w Hroot Hinv) as (t1 & lbl' & Ha1 & Hr1 & Hi1 & _).
    assert (t1 = t') as -> by congruence. eauto.
Qed.

Lemma built_addWord t ws w : built t ws -> exists t', addWord t w = Ok t'.
Proof.
  intros Hb. destruct (built_inv _ _ Hb) as [Hroot [lbl Hinv]].
  destruct (addWord_spec t lbl ws w Hroot Hinv) as (t1 & _ & Ha1 & _). eauto.
Qed.

Lemma built_total t ws q term : built t ws -> exists b, hasSubString t q term = Ok b.
Proof.
  intros Hb. destruct (built_inv _ _ Hb) as [Hroot [lbl Hinv]].
  unfold hasSubString. rewrite Hroot.
  eapply hasSubString_from_total; [eassumption | apply (inv_nonempty _ _ _ Hinv)].
Qed.

(** Every word passed to [addWord] is a whole word of the trie. *)
Lemma built_complete t ws w : built t ws -> In w ws -> hasSubString t w true = Ok true.
Proof.
  induction 1 as [|t ws w0 t' Hb IH Ha]; intros Hin; [destruct Hin|].
  destruct (built_inv _ _ Hb) as [Hroot [lbl Hinv]].
  destruct (addWord_spec t lbl ws w0 Hroot Hinv) as (t1 & lbl' & Ha1 & Hr1 & Hi1 & He & Hq).
  assert (t1 = t') as -> by congruence.
  apply in_app_or in Hin as [Hin | [<- | []]]; [|assumption].
  specialize (IH Hin). unfold hasSubString in *. rewrite Hr1, Hroot in *.
  eapply hasSubString_from_ext; eassumption.
Qed.

(** Every whole word of the trie was passed to [addWord], up to case. *)
Lemma built_sound t ws q :
  built t ws -> hasSubString t q true = Ok true ->
  exists w, In w ws /\ toLowerCase w = toLowerCase q.
Proof.
  intros Hb Hq. destruct (built_inv _ _ Hb) as [Hroot [lbl Hinv]].
  unfold hasSubString in Hq. rewrite Hroot in Hq.
  destruct (hasSubString_from_sound _ _ _ _ _ Hinv Hq) as (w & Hin & Hw).
  rewrite (inv_root _ _ _ Hinv) in Hw. simpl in Hw.
  exists w. split; [assumption | apply split_inj; assumption].
Qed.

Lemma addWords_built ws2 : forall t ws1,
  built t ws1 -> exists t', addWords t ws2 = Ok t' /\ built t' (ws1 ++ ws2).
Proof.
  induction ws2 as [|w ws2 IH]; intros t ws1 Hb; simpl.
  - exists t. rewrite app_nil_r. auto.
  - destruct (built_addWord t ws1 w Hb) as [t1 Ha]. rewrite Ha. simpl.
    destruct (IH t1 (ws1 ++ [w])) as (t' & Hs & Hb'); [econstructor; eassumption|].
    exists t'. split; [assumption|]. rewrite <- app_assoc in Hb'. assumption.
Qed.

(** [new Trie(words)] never fails. *)
Lemma Trie_new_built ws : exists t, Trie_new ws = Ok t /\ built t ws.
Proof. apply (addWords_built ws _ [] built_new). Qed.

Lemma BoggleGame_new_built w h b d :
  exists t, BoggleGame_new w h b d =
            Ok {| width := w; height := h; board := b; dictionary := d; trie := t |}
            /\ built t d.
Proof.
  destruct (Trie_new_built d) as (t & Ht & Hb). exists t.
  unfold BoggleGame_new. rewrite Ht. simpl. auto.
Qed.


(** * Properties of the search *)

(** ** Running the monad *)

Lemma M_bind_Ok {A B : Type} (c : M A) (f : A -> M B) (m : Mem) (r : B * Mem) :
  (c ≫= f) m = Ok r -> exists a m1, c m = Ok (a, m1) /\ f a m1 = Ok r.
Proof.
  unfold mbind, M_bind. destruct (c m) as [[a m1]| |]; intros H; try discriminate.
  exists a, m1. auto.
Qed.

Lemma M_bind_run {A B : Type} (c : M A) (f : A -> M B) (m m1 : Mem) (a : A) :
  c m = Ok (a, m1) -> (c ≫= f) m = f a m1.
Proof. intros H. unfold mbind, M_bind. rewrite H. reflexivity. Qed.

Lemma forOf_app {A : Type} (l1 l2 : list A) (body : A -> M unit) (m : Mem) :
  forOf (l1 ++ l2) body m = (forOf l1 body ;; forOf l2 body) m.
Proof.
  revert m. induction l1 as [|x l1 IH]; intros m; simpl.
  - reflexivity.
  - unfold mbind, M_bind. destruct (body x m) as [[[] m1]| |]; try reflexivity.
    apply IH.
Qed.

(** ** [indexOf] and membership *)

Lemma indexOf_from_In {A : Type} `{EqDecision A} (l : list A) (x : A) : forall k,
  0 <= k -> (indexOf_from l x k = -1 <-> ~ In x l).
Proof.
  induction l as [|y l IH]; intros k Hk; simpl; [tauto|].
  destruct (decide (y = x)) as [->|Hne].
  - split; [lia | intros H; exfalso; apply H; auto].
  - rewrite IH by lia. split; [intros H [?|?]; [congruence | auto] | tauto].
Qed.

Lemma indexOf_In {A : Type} `{EqDecision A} (l : list A) (x : A) :
  indexOf l x = -1 <-> ~ In x l.
Proof. apply indexOf_from_In. lia. Qed.

Lemma indexOf_eqb {A : Type} `{EqDecision A} (l : list A) (x : A) :
  (indexOf l x =? -1) = true <-> ~ In x l.
Proof. rewrite Z.eqb_eq. apply indexOf_In. Qed.

Lemma classic_In {A : Type} `{EqDecision A} (x : A) (l : list A) : In x l \/ ~ In x l.
Proof. destruct (in_dec (fun a b => decide (a = b)) x l); auto. Qed.

(** ** What a search leaves behind *)

Lemma post_refl m : post m m.
Proof. split; auto. exists []. rewrite app_nil_r. reflexivity. Qed.

Lemma post_trans m1 m2 m3 : post m1 m2 -> post m2 m3 -> post m1 m3.
Proof.
  intros [Ht1 Hp1 [n1 Hg1] Hn1 Hw1] [Ht2 Hp2 [n2 Hg2] Hn2 Hw2].
  split; try congruence; auto.
  - exists (n1 ++ n2). rewrite Hg2, Hg1, app_assoc. reflexivity.
  - intros x Hx. destruct (Hw2 x Hx) as [Hin | H]; [auto|]. rewrite Ht1 in H. auto.
Qed.

Lemma foundWord_run (w : string) (m : Mem) :
  foundWord w m =
  Ok (tt, if indexOf (words m) w =? -1
          then {| this := this m; path := path m; words := words m ++ [w] |}
          else m).
Proof.
  unfold foundWord, words_indexOf, mbind, M_bind.
  destruct (indexOf (words m) w =? -1); reflexivity.
Qed.

Lemma foundWord_post (w : string) (m m' : Mem) (u : unit) :
  (3 <= String.length w)%nat -> hasSubString (trie (this m)) w true = Ok true ->
  foundWord w m = Ok (u, m') -> post m m'.
Proof.
  intros Hlen Hq H. rewrite foundWord_run in H. injection H as _ <-.
  destruct (indexOf (words m) w =? -1) eqn:Hi; [|apply post_refl].
  apply indexOf_eqb in Hi.
  split; simpl; auto.
  - exists [w]. reflexivity.
  - intros Hnd. apply NoDup_ListNoDup. apply NoDup_ListNoDup in Hnd.
    apply NoDup_app. split; [assumption|]. split.
    + intros x Hx [->|[]]%list_elem_of_In. apply Hi, list_elem_of_In. assumption.
    + apply NoDup_singleton.
  - intros x [Hx | [<- | []]]%in_app_or; auto.
Qed.

Lemma foundWord_In (w : string) (m m' : Mem) (u : unit) :
  foundWord w m = Ok (u, m') -> In w (words m').
Proof.
  intros H. rewrite foundWord_run in H. injection H as _ <-.
  destruct (indexOf (words m) w =? -1) eqn:Hi; simpl.
  - apply in_or_app. right. left. reflexivity.
  - destruct (classic_In w (words m)) as [Hin | Hn]; [assumption|].
    apply indexOf_eqb in Hn. congruence.
Qed.

(** ** One frame of [backTrack] *)

Lemma backTrack_S fuel w c d fw :
  backTrack (S fuel) w c d fw =
  (isWord ← isWordHere w;
   (if isWord : bool then fw w else skip);;
   adjacent ← this_getAdjacent c;
   forOf adjacent (visit (backTrack fuel) w (d + 1) fw)).
Proof. reflexivity. Qed.

Lemma visit_run rec w d fw x m :
  visit rec w d fw x m =
  if negb (indexOf (path m) x =? -1) then Ok (tt, m)
  else
    match hasSubString (trie (this m)) (concat_letter w (board_at (board (this m)) x)) false with
    | Ok true =>
        match rec (concat_letter w (board_at (board (this m)) x)) x d fw (pushed m x) with
        | Ok (_, m2) => Ok (tt, popped m2)
        | TypeError => TypeError
        | OutOfFuel => OutOfFuel
        end
    | Ok false => Ok (tt, m)
    | TypeError => TypeError
    | OutOfFuel => OutOfFuel
    end.
Proof.
  unfold visit, mbind, M_bind, path_indexOf, this_board_at, this_trie_hasSubString,
    path_push, path_pop, skip, mret, M_ret. simpl.
  destruct (indexOf (path m) x =? -1); simpl; [|reflexivity].
  destruct (hasSubString _ _ false) as [[|]| |]; simpl; try reflexivity.
Qed.

Lemma isWordHere_run w m :
  isWordHere w m =
  if (3 <=? String.length w)%nat
  then match hasSubString (trie (this m)) w true with
       | Ok b => Ok (b, m)
       | TypeError => TypeError
       | OutOfFuel => OutOfFuel
       end
  else Ok (false, m).
Proof. unfold isWordHere. destruct (3 <=? String.length w)%nat; reflexivity. Qed.

Lemma isWordHere_Ok w m b m1 :
  isWordHere w m = Ok (b, m1) ->
  m1 = m /\ (b = true ->
             (3 <= String.length w)%nat /\ hasSubString (trie (this m)) w true = Ok true).
Proof.
  rewrite isWordHere_run.
  destruct (3 <=? String.length w)%nat eqn:Hlen.
  - destruct (hasSubString (trie (this m)) w true) as [b0| |]; try discriminate.
    intros [= <- <-]. split; [reflexivity|]. intros ->.
    apply Nat.leb_le in Hlen. auto.
  - intros [= <- <-]. split; [reflexivity | discriminate].
Qed.

Lemma post_pop m m2 x : post (pushed m x) m2 -> post m (popped m2).
Proof.
  intros [Ht Hp Hg Hn Hw]. split; simpl in *; auto.
  rewrite Hp. apply removelast_last.
Qed.

Lemma forOf_post {A : Type} (l : list A) (body : A -> M unit) :
  (forall x m u m', body x m = Ok (u, m') -> post m m') ->
  forall m u m', forOf l body m = Ok (u, m') -> post m m'.
Proof.
  intros Hbody. induction l as [|x l IH]; intros m u m' H; simpl in H.
  - injection H as _ <-. apply post_refl.
  - apply M_bind_Ok in H as (u1 & m1 & H1 & H2).
    eapply post_trans; [eapply Hbody | eapply IH]; eassumption.
Qed.

Lemma visit_post rec w d x m u m' :
  (forall w' c' d' m u m', rec w' c' d' foundWord m = Ok (u, m') -> post m m') ->
  visit rec w d foundWord x m = Ok (u, m') -> post m m'.
Proof.
  intros Hrec H. rewrite visit_run in H.
  destruct (negb (indexOf (path m) x =? -1)).
  { injection H as _ <-. apply post_refl. }
  destruct (hasSubString _ _ false) as [[|]| |]; try discriminate.
  - destruct (rec _ x d foundWord (pushed m x)) as [[u2 m2]| |] eqn:Hr; try discriminate.
    injection H as _ <-. apply post_pop with x. eapply Hrec. eassumption.
  - injection H as _ <-. apply post_refl.
Qed.

(** A search that returns leaves the game and the path as they were, and
    adds to [words] only new whole words of three letters or more. *)
Lemma backTrack_post fuel : forall w c d m u m',
  backTrack fuel w c d foundWord m = Ok (u, m') -> post m m'.
Proof.
  induction fuel as [|fuel IH]; intros w c d m u m' H; [discriminate|].
  rewrite backTrack_S in H.
  apply M_bind_Ok in H as (isWord & m1 & H1 & H).
  apply isWordHere_Ok in H1 as [-> Hword].
  apply M_bind_Ok in H as (u2 & m2 & H2 & H).
  apply M_bind_Ok in H as (adjacent & m3 & H3 & H).
  injection H3 as <- <-.
  assert (P2 : post m m2).
  { destruct isWord.
    - destruct Hword as [Hlen Hq]; [reflexivity|]. eapply foundWord_post; eassumption.
    - injection H2 as _ <-. apply post_refl. }
  eapply post_trans; [exact P2|].
  eapply forOf_post; [|exact H].
  intros x m0 u0 m0'. apply visit_post. exact IH.
Qed.

(** ** Termination *)

Lemma isValidCell_spec g x :
  isValidCell g x = true <-> 0 <= x < Z.of_nat (length (board g)).
Proof. unfold isValidCell. rewrite andb_true_iff, Z.leb_le, Z.ltb_lt. tauto. Qed.

Lemma isValidCell_cells g x : isValidCell g x = true -> In x (cells g).
Proof.
  intros H%isValidCell_spec. unfold cells. apply in_map_iff.
  exists (Z.to_nat x). split; [lia|]. apply in_seq. lia.
Qed.

Lemma getAdjacent_valid g i x : In x (getAdjacent g i) -> isValidCell g x = true.
Proof. unfold getAdjacent. intros H%filter_In. apply H. Qed.

Lemma filter_length_le {A : Type} (f g : A -> bool) (l : list A) :
  (forall a, f a = true -> g a = true) ->
  (length (List.filter f l) <= length (List.filter g l))%nat.
Proof.
  intros Hfg. induction l as [|a l IH]; simpl; [lia|].
  destruct (f a) eqn:Hf.
  - rewrite (Hfg a Hf). simpl. lia.
  - destruct (g a); simpl; lia.
Qed.

Lemma filter_length_lt {A : Type} (f g : A -> bool) (l : list A) (x : A) :
  (forall a, f a = true -> g a = true) ->
  In x l -> g x = true -> f x = false ->
  (length (List.filter f l) < length (List.filter g l))%nat.
Proof.
  intros Hfg Hin Hg Hf. induction l as [|a l IH]; simpl; [destruct Hin|].
  destruct Hin as [->|Hin].
  - rewrite Hf, Hg. simpl. pose proof (filter_length_le f g l Hfg). lia.
  - specialize (IH Hin). destruct (f a) eqn:Hfa.
    + rewrite (Hfg a Hfa). simpl. lia.
    + destruct (g a); simpl; lia.
Qed.

Lemma unvisited_nil g : unvisited g [] = length (board g).
Proof.
  unfold unvisited, cells. rewrite forallb_filter_id.
  - rewrite length_map, length_seq. reflexivity.
  - apply forallb_forall. reflexivity.
Qed.

(** Pushing a cell of the board that is not on the path leaves fewer cells
    to visit. *)
Lemma unvisited_push g p x :
  isValidCell g x = true -> indexOf p x = -1 ->
  (unvisited g (p ++ [x]) < unvisited g p)%nat.
Proof.
  intros Hv Hx. unfold unvisited.
  apply filter_length_lt with x.
  - intros a Ha. apply indexOf_eqb. apply indexOf_eqb in Ha.
    intros Hin. apply Ha. apply in_or_app. auto.
  - apply isValidCell_cells. assumption.
  - apply Z.eqb_eq. assumption.
  - apply not_true_is_false. intros Ha%indexOf_eqb. apply Ha.
    apply in_or_app. right. left. reflexivity.
Qed.

Lemma visit_total fuel w d x m ws :
  (forall w' c' d' m', built (trie (this m')) ws ->
     (unvisited (this m') (path m') < fuel)%nat ->
     exists m'', backTrack fuel w' c' d' foundWord m' = Ok (tt, m'')) ->
  built (trie (this m)) ws ->
  (unvisited (this m) (path m) <= fuel)%nat ->
  isValidCell (this m) x = true ->
  exists m', visit (backTrack fuel) w d foundWord x m = Ok (tt, m').
Proof.
  intros IH Hb Hfuel Hv. rewrite visit_run.
  destruct (indexOf (path m) x =? -1) eqn:Hi; simpl; [|eauto].
  apply Z.eqb_eq in Hi.
  destruct (built_total _ _ (concat_letter w (board_at (board (this m)) x)) false Hb) as [b Hq].
  rewrite Hq. destruct b; [|eauto].
  destruct (IH (concat_letter w (board_at (board (this m)) x)) x d (pushed m x)) as [m2 H2].
  - assumption.
  - simpl. pose proof (unvisited_push (this m) (path m) x Hv Hi). lia.
  - rewrite H2. eauto.
Qed.

Lemma loop_total fuel w d ws (l : list Z) :
  (forall w' c' d' m', built (trie (this m')) ws ->
     (unvisited (this m') (path m') < fuel)%nat ->
     exists m'', backTrack fuel w' c' d' foundWord m' = Ok (tt, m'')) ->
  forall m,
  built (trie (this m)) ws ->
  (unvisited (this m) (path m) <= fuel)%nat ->
  (forall x, In x l -> isValidCell (this m) x = true) ->
  exists m', forOf l (visit (backTrack fuel) w d foundWord) m = Ok (tt, m').
Proof.
  intros IH. induction l as [|x l IHl]; intros m Hb Hfuel Hv; simpl.
  - eexists. reflexivity.
  - destruct (visit_total fuel w d x m ws IH Hb Hfuel) as [m1 H1].
    { apply Hv. left. reflexivity. }
    rewrite (M_bind_run _ _ _ _ _ H1).
    assert (P : post m m1).
    { eapply visit_post; [|exact H1]. intros. eapply backTrack_post. eassumption. }
    destruct P as [Ht Hp _ _ _].
    apply IHl; rewrite ?Ht, ?Hp; auto.
    intros y Hy. apply Hv. right. assumption.
Qed.

(** [backTrack] returns when its fuel exceeds the number of cells left. *)
Lemma backTrack_total fuel : forall w c d m ws,
  built (trie (this m)) ws ->
  (unvisited (this m) (path m) < fuel)%nat ->
  exists m', backTrack fuel w c d foundWord m = Ok (tt, m').
Proof.
  induction fuel as [|fuel IH]; intros w c d m ws Hb Hfuel; [lia|].
  rewrite backTrack_S.
  assert (H1 : exists b, isWordHere w m = Ok (b, m)).
  { rewrite isWordHere_run. destruct (3 <=? String.length w)%nat; [|eauto].
    destruct (built_total _ _ w true Hb) as [b ->]. eauto. }
  destruct H1 as [b H1]. rewrite (M_bind_run _ _ _ _ _ H1).
  assert (H2 : exists m2, (if b then foundWord w else skip) m = Ok (tt, m2) /\
                          this m2 = this m /\ path m2 = path m).
  { destruct b; [|exists m; auto]. rewrite foundWord_run.
    eexists. split; [reflexivity|]. destruct (indexOf (words m) w =? -1); auto. }
  destruct H2 as (m2 & H2 & Ht & Hp). rewrite (M_bind_run _ _ _ _ _ H2).
  erewrite M_bind_run by reflexivity.
  apply loop_total with ws.
  - intros w' c' d' m' Hb' Hf'. eapply IH; eassumption.
  - rewrite Ht. assumption.
  - rewrite Ht, Hp. lia.
  - intros x Hx. eapply getAdjacent_valid. eassumption.
Qed.

(** ** More fuel

    A search that returns with some fuel returns the same with more. *)

Lemma visit_mono (rec rec' : string -> Z -> Z -> (string -> M unit) -> M unit)
    w d x m (r : unit * Mem) :
  (forall w' c' d' m' r', rec w' c' d' foundWord m' = Ok r' ->
                          rec' w' c' d' foundWord m' = Ok r') ->
  visit rec w d foundWord x m = Ok r -> visit rec' w d foundWord x m = Ok r.
Proof.
  intros Hrec. rewrite !visit_run.
  destruct (negb (indexOf (path m) x =? -1)); [auto|].
  destruct (hasSubString _ _ false) as [[|]| |]; auto.
  destruct (rec _ x d foundWord (pushed m x)) as [[u2 m2]| |] eqn:Hr; try discriminate.
  rewrite (Hrec _ _ _ _ _ Hr). auto.
Qed.

Lemma forOf_mono {A : Type} (l : list A) (body body' : A -> M unit) :
  (forall x m r, body x m = Ok r -> body' x m = Ok r) ->
  forall m r, forOf l body m = Ok r -> forOf l body' m = Ok r.
Proof.
  intros Hbody. induction l as [|x l IH]; intros m r H; simpl in *; [assumption|].
  apply M_bind_Ok in H as (u1 & m1 & H1 & H2).
  rewrite (M_bind_run _ _ _ _ _ (Hbody _ _ _ H1)). apply IH. assumption.
Qed.

Lemma backTrack_fuel_mono fuel : forall fuel' w c d m r,
  (fuel <= fuel')%nat ->
  backTrack fuel w c d foundWord m = Ok r ->
  backTrack fuel' w c d foundWord m = Ok r.
Proof.
  induction fuel as [|fuel IH]; intros fuel' w c d m r Hle H; [discriminate|].
  destruct fuel' as [|fuel']; [lia|].
  rewrite backTrack_S in *.
  apply M_bind_Ok in H as (isWord & m1 & H1 & H).
  rewrite (M_bind_run _ _ _ _ _ H1).
  apply M_bind_Ok in H as (u2 & m2 & H2 & H).
  rewrite (M_bind_run _ _ _ _ _ H2).
  apply M_bind_Ok in H as (adjacent & m3 & H3 & H).
  rewrite (M_bind_run _ _ _ _ _ H3).
  eapply forOf_mono; [|exact H].
  intros x m0 r0. apply visit_mono.
  intros w' c' d' m' r'. apply IH. lia.
Qed.

(** ** [solve] *)

Lemma solve_fuel_run fuel m :
  solve_fuel fuel m =
  match forOf (indexed (board (this m))) (start fuel) (emptied m) with
  | Ok (_, m1) => Ok (words m1, m1)
  | TypeError => TypeError
  | OutOfFuel => OutOfFuel
  end.
Proof.
  reflexivity.
Qed.

Lemma start_run fuel l i m :
  start fuel (l, i) m = backTrack fuel l i 0 foundWord (cleared m).
Proof. reflexivity. Qed.

Lemma cleared_id m : path m = [] -> cleared m = m.
Proof. destruct m as [g p ws]. simpl. intros ->. reflexivity. Qed.

Lemma starts_post fuel (l : list (string * Z)) : forall m u m',
  forOf l (start fuel) m = Ok (u, m') -> post (cleared m) (cleared m').
Proof.
  induction l as [|[s i] l IH]; intros m u m' H; simpl in H.
  - injection H as _ <-. apply post_refl.
  - apply M_bind_Ok in H as (u1 & m1 & H1 & H2).
    rewrite start_run in H1. apply backTrack_post in H1.
    eapply post_trans; [exact H1|].
    rewrite <- (cleared_id m1) at 1 by (rewrite (post_path _ _ H1); reflexivity).
    eapply IH. eassumption.
Qed.

Lemma starts_total fuel ws (l : list (string * Z)) : forall m,
  built (trie (this m)) ws -> (length (board (this m)) < fuel)%nat ->
  exists m', forOf l (start fuel) m = Ok (tt, m').
Proof.
  induction l as [|[s i] l IH]; intros m Hb Hfuel; simpl.
  - eexists. reflexivity.
  - destruct (backTrack_total fuel s i 0 (cleared m) ws) as [m1 H1].
    + assumption.
    + simpl. rewrite unvisited_nil. assumption.
    + rewrite <- start_run in H1. rewrite (M_bind_run _ _ _ _ _ H1).
      rewrite start_run in H1. apply backTrack_post in H1.
      apply IH; rewrite (post_this _ _ H1); assumption.
Qed.

(** What [solve] returns when it returns. *)
Lemma solve_post m ws m' :
  solve m = Ok (ws, m') ->
  this m' = this m /\ words m' = ws /\ List.NoDup ws /\
  forall x, In x ws ->
    (3 <= String.length x)%nat /\ hasSubString (trie (this m)) x true = Ok true.
Proof.
  unfold solve. rewrite solve_fuel_run.
  destruct (forOf _ _ (emptied m)) as [[u m1]| |] eqn:H; try discriminate.
  intros [= <- <-]. apply starts_post in H. destruct H as [Ht Hp Hg Hn Hw].
  simpl in *. repeat split; auto.
  - apply Hn. constructor.
  - destruct (Hw x H) as [[] | [? _]]. assumption.
  - destruct (Hw x H) as [[] | [_ ?]]. assumption.
Qed.

(** [solve] returns on a game whose trie was built through the interface. *)
Lemma solve_total m ws0 :
  built (trie (this m)) ws0 -> exists ws m', solve m = Ok (ws, m').
Proof.
  intros Hb. unfold solve. rewrite solve_fuel_run.
  destruct (starts_total (S (length (board (this m)))) ws0
              (indexed (board (this m))) (emptied m)) as [m1 H1].
  - assumption.
  - simpl. lia.
  - rewrite H1. eauto.
Qed.

(** What [solve] returns depends on the game only. *)
Lemma solve_this m1 m2 :
  this m1 = this m2 -> returned (solve m1) = returned (solve m2).
Proof.
  intros Ht. unfold solve. rewrite !solve_fuel_run, <- Ht.
  destruct (indexed (board (this m1))) as [|[s i] l]; simpl.
  - reflexivity.
  - unfold mbind, M_bind. rewrite !start_run.
    assert (cleared (emptied m1) = cleared (emptied m2)) as ->
      by (unfold cleared, emptied; simpl; rewrite Ht; reflexivity).
    reflexivity.
Qed.

(** [solve] with more fuel than it takes returns the same. *)
Lemma solve_fuel_mono fuel fuel' m r :
  (fuel <= fuel')%nat -> solve_fuel fuel m = Ok r -> solve_fuel fuel' m = Ok r.
Proof.
  intros Hle. rewrite !solve_fuel_run.
  destruct (forOf _ (start fuel) (emptied m)) as [[u m1]| |] eqn:H; try discriminate.
  assert (H' : forOf (indexed (board (this m))) (start fuel') (emptied m) = Ok (u, m1)).
  { eapply forOf_mono; [|exact H].
    intros [l i] m0 r0. rewrite !start_run. apply backTrack_fuel_mono. assumption. }
  rewrite H'. auto.
Qed.

Lemma play_run w h b d t :
  BoggleGame_new w h b d =
    Ok {| width := w; height := h; board := b; dictionary := d; trie := t |} ->
  play w h b d =
  returned (solve {| this := {| width := w; height := h; board := b;
                                dictionary := d; trie := t |};
                     path := []; words := [] |}).
Proof. intros H. unfold play. rewrite H. reflexivity. Qed.

(** [new BoggleGame(...).solve()] returns, and what it returns. *)
Lemma play_spec w h b d :
  exists t ws,
    built t d /\ play w h b d = Ok ws /\ List.NoDup ws /\
    forall x, In x ws ->
      (3 <= String.length x)%nat /\ hasSubString t x true = Ok true.
Proof.
  destruct (BoggleGame_new_built w h b d) as (t & Hg & Hb).
  set (g := {| width := w; height := h; board := b; dictionary := d; trie := t |}) in *.
  destruct (solve_total {| this := g; path := []; words := [] |} d Hb) as (ws & m' & Hs).
  exists t, ws. rewrite (play_run _ _ _ _ _ Hg). fold g. rewrite Hs. simpl.
  destruct (solve_post _ _ _ Hs) as (_ & _ & Hnd & Hw). auto.
Qed.

(** * The properties of the specification *)

(** ** C4: the length of the words returned *)

(** C4. For every board and dictionary, [solve()] returns, and every word
    it returns has three letters or more. *)
Theorem solve_min_length (w h : Z) (b d : list string) :
  exists ws, play w h b d = Ok ws /\
             Forall (fun x => (3 <= String.length x)%nat) ws.
Proof.
  destruct (play_spec w h b d) as (t & ws & _ & Hp & _ & Hw).
  exists ws. split; [assumption|].
  apply List.Forall_forall. intros x Hx. apply (Hw x Hx).
Qed.

(** ** C3: the words returned and the dictionary *)

(** A board in capitals gives back its own spelling of the word. *)
Lemma solve_keeps_board_case : ~ returns_lowercased_entries.
Proof.
  intros H.
  destruct (H 3 1 ["A"; "B"; "C"] ["abc"] ["ABC"]) with (x := "ABC")
    as (e & [<- | []] & He).
  - vm_compute. reflexivity.
  - left. reflexivity.
  - vm_compute in He. discriminate.
Qed.

(** C3, amended. For every board and dictionary, [solve()] returns, and
    every word it returns is an entry of the dictionary up to case: its
    lower-casing is the lower-casing of an entry. *)
Theorem solve_in_dictionary (w h : Z) (b d : list string) :
  exists ws, play w h b d = Ok ws /\
             Forall (fun x => exists e, In e d /\ toLowerCase x = toLowerCase e) ws.
Proof.
  destruct (play_spec w h b d) as (t & ws & Hb & Hp & _ & Hw).
  exists ws. split; [assumption|].
  apply List.Forall_forall. intros x Hx.
  destruct (Hw x Hx) as [_ Hq].
  destruct (built_sound t d x Hb Hq) as (e & He & Hl). eauto.
Qed.

(** ** C2: the first scenario *)

(** The word [abd] is found too, along the cells 0, 1, 3. *)
Lemma scenario1_not_only_abc :
  ~ (exists ws, scenario1 = Ok ws /\ forall x, In x ws <-> x = "abc").
Proof.
  intros (ws & H & Hw). vm_compute in H. injection H as <-.
  assert (Habs : "abd" = "abc") by (apply Hw; right; left; reflexivity).
  discriminate.
Qed.

(** C2, amended. On the 2x2 board a, b, c, d with the dictionary ab, abc,
    abd, xyz, [solve()] returns abc and abd, in this order, and nothing
    else: ab is too short and xyz is not on the board. *)
Theorem scenario1_result : scenario1 = Ok ["abc"; "abd"].
Proof. vm_compute. reflexivity. Qed.

(** ** C1: the cells of a word *)

Lemma abcd_letter (c : Z) :
  (c = 0 /\ board_at abcd c = Some "a") \/
  (c = 1 /\ board_at abcd c = Some "b") \/
  board_at abcd c = Some "c" \/
  board_at abcd c = Some "d" \/
  board_at abcd c = None.
Proof.
  unfold board_at. destruct (0 <=? c) eqn:Hc; [|tauto].
  apply Z.leb_le in Hc.
  destruct (Z.to_nat c) as [|[|[|[|k]]]] eqn:Hk; simpl; try tauto.
  - left. split; [lia | reflexivity].
  - right. left. split; [lia | reflexivity].
Qed.

Lemma spell_aba (cs : list Z) : spell abcd cs = "aba" -> cs = [0; 1; 0].
Proof.
  destruct cs as [|c1 cs]; simpl; [discriminate|].
  destruct (abcd_letter c1) as [[-> ->] | [[-> ->] | [-> | [-> | ->]]]];
    simpl; try discriminate.
  intros [= H]. destruct cs as [|c2 cs]; simpl in H; [discriminate|].
  destruct (abcd_letter c2) as [[-> E] | [[-> E] | [E | [E | E]]]];
    rewrite E in H; simpl in H; try discriminate.
  injection H as H. destruct cs as [|c3 cs]; simpl in H; [discriminate|].
  destruct (abcd_letter c3) as [[-> E3] | [[-> E3] | [E3 | [E3 | E3]]]];
    rewrite E3 in H; simpl in H; try discriminate.
  injection H as H. destruct cs as [|c4 cs]; [reflexivity|].
  simpl in H.
  destruct (abcd_letter c4) as [[-> E4] | [[-> E4] | [E4 | [E4 | E4]]]];
    rewrite E4 in H; simpl in H; discriminate.
Qed.

(** C1, at the board a, b, c, d with the dictionary aba. [solve()] returns
    aba, although the only cells that spell it are 0, 1, 0, with the
    starting cell twice: [solve] starts each search with an empty path
    instead of the path that holds the starting cell, and the same search
    started with the path [[0]] finds nothing. *)
Theorem solve_revisits_start_cell :
  play 2 2 abcd ["aba"] = Ok ["aba"] /\
  (forall cs, spell abcd cs = "aba" -> ~ List.NoDup cs) /\
  search_from 2 2 abcd ["aba"] 0 [] = Ok ["aba"] /\
  search_from 2 2 abcd ["aba"] 0 [0] = Ok [].
Proof.
  split; [vm_compute; reflexivity|].
  split; [|split; vm_compute; reflexivity].
  intros cs ->%spell_aba Hnd.
  inversion Hnd as [|x l Hin _]. apply Hin. right. left. reflexivity.
Qed.

Lemma solve_revisits_start_cell_witness :
  spell abcd [0; 1; 0] = "aba" /\ ~ List.NoDup [0; 1; 0].
Proof.
  split; [reflexivity|].
  apply (proj1 (proj2 solve_revisits_start_cell)). reflexivity.
Defined.

(** ** C6 and C9: queries on a trie *)

(** A query depends on the lower-casing of its argument only. *)
Lemma hasSubString_case (t : Trie) (q q' : string) (term : bool) :
  toLowerCase q = toLowerCase q' -> hasSubString t q term = hasSubString t q' term.
Proof. intros H. unfold hasSubString. rewrite H. reflexivity. Qed.

Lemma hasSubString_prefix (t : Trie) (p s : string) (term : bool) :
  hasSubString t (p ++ s) term = Ok true -> hasSubString t p false = Ok true.
Proof.
  unfold hasSubString. rewrite toLowerCase_app, split_app.
  apply hasSubString_from_prefix.
Qed.

(** C6. [new Trie(words)] returns a trie in which every word [w] of [words]
    is a whole word and every prefix [p] of [w] is a prefix, whatever the
    case of the letters of the query [q]. *)
Theorem trie_round_trip (ws : list string) :
  exists t, Trie_new ws = Ok t /\
    forall w, In w ws ->
      (forall q, toLowerCase q = toLowerCase w -> hasSubString t q true = Ok true) /\
      (forall p s q, w = (p ++ s)%string -> toLowerCase q = toLowerCase p ->
                     hasSubString t q false = Ok true).
Proof.
  destruct (Trie_new_built ws) as (t & Ht & Hb). exists t. split; [assumption|].
  intros w Hw. pose proof (built_complete t ws w Hb Hw) as Hq. split.
  - intros q Hc. rewrite (hasSubString_case t q w true Hc). assumption.
  - intros p s q -> Hc. rewrite (hasSubString_case t q p false Hc).
    eapply hasSubString_prefix. eassumption.
Qed.

Lemma trie_round_trip_witness :
  exists t, Trie_new ["Hello"; "help"] = Ok t /\
            hasSubString t "HELLO" true = Ok true /\
            hasSubString t "hEl" false = Ok true.
Proof.
  destruct (trie_round_trip ["Hello"; "help"]) as (t & Ht & H).
  exists t. split; [assumption|].
  destruct (H "Hello") as [H1 H2]; [left; reflexivity|].
  split.
  - apply H1. reflexivity.
  - apply (H2 "Hel" "lo"); reflexivity.
Defined.

Lemma toLowerCase_empty (w : string) : toLowerCase w = EmptyString -> w = EmptyString.
Proof. destruct w; [reflexivity | discriminate]. Qed.

(** C9. Tries are built by [new Trie(words)] and further calls of [addWord].
    On every such trie the prefix query on the empty string is true, the
    whole-word query on it never fails and is true exactly when the empty
    string was passed to [addWord], and [addWord] of the empty string
    creates no node: it marks the root terminal and leaves the other nodes
    as they are. *)
Theorem empty_string_queries :
  (forall ws, exists t, Trie_new ws = Ok t /\ built t ws) /\
  (forall t ws, built t ws ->
     hasSubString t EmptyString false = Ok true /\
     (exists b, hasSubString t EmptyString true = Ok b /\
                (b = true <-> In EmptyString ws)) /\
     (exists n, nodes t !! root t = Some n /\
                addWord t EmptyString =
                Ok {| root := root t;
                      nodes := <[root t := markTerminal n]> (nodes t) |})).
Proof.
  split; [apply Trie_new_built|].
  intros t ws Hb. split; [reflexivity|]. split.
  - destruct (built_total t ws EmptyString true Hb) as [b Hq].
    exists b. split; [assumption|]. split.
    + intros ->. destruct (built_sound t ws EmptyString Hb Hq) as (w & Hin & Hw).
      apply toLowerCase_empty in Hw. subst w. assumption.
    + intros Hin. pose proof (built_complete t ws EmptyString Hb Hin). congruence.
  - destruct (built_inv t ws Hb) as [Hroot [lbl Hinv]].
    destruct (lookup_lt_is_Some_2 (nodes t) (root t)) as [n Hn].
    { rewrite Hroot. apply (inv_nonempty _ _ _ Hinv). }
    exists n. split; [assumption|].
    unfold addWord. simpl. rewrite (deref_lookup _ _ _ Hn). reflexivity.
Qed.

Lemma empty_string_queries_witness :
  hasSubString {| root := 0%nat; nodes := [TrieNode_new None "root"] |}
    EmptyString false = Ok true /\
  hasSubString {| root := 0%nat; nodes := [TrieNode_new None "root"] |}
    EmptyString true = Ok false.
Proof.
  destruct (proj2 empty_string_queries _ _ built_new) as (H1 & (b & Hq & Hb) & _).
  split; [assumption|].
  rewrite Hq. f_equal. destruct b; [|reflexivity].
  exfalso. apply (proj1 Hb). reflexivity.
Defined.

(** ** C7 and C10: the neighbours of a cell *)

Lemma getAdjacent_In (g : BoggleGame) (i j : Z) :
  In j (getAdjacent g i) <->
  In j [ i - (width g + 1); i - width g; i - (width g - 1); i - 1;
         i + 1; i + (width g - 1); i + width g; i + (width g + 1) ] /\
  0 <= j < Z.of_nat (length (board g)).
Proof. unfold getAdjacent. rewrite filter_In, isValidCell_spec. reflexivity. Qed.

(** C7. A neighbour of [i] is any of the eight offsets of [i] that is an
    index of the board ([0 <= j < width * height] on a board of that size),
    with no test on rows. So, on a board at least two cells wide, the cell
    after the last cell of a row is a neighbour of that cell although it is
    the first cell of the next row, and the cell before the first cell of
    a row is a neighbour of that cell although it is the last cell of the
    previous row. *)
Theorem adjacency_wraps (g : BoggleGame) (i : Z) :
  (forall j, Z.of_nat (length (board g)) = width g * height g ->
     (In j (getAdjacent g i) <->
      In j [ i - (width g + 1); i - width g; i - (width g - 1); i - 1;
             i + 1; i + (width g - 1); i + width g; i + (width g + 1) ] /\
      0 <= j < width g * height g)) /\
  (2 <= width g -> 0 <= i -> i mod width g = width g - 1 ->
   i + 1 < Z.of_nat (length (board g)) ->
   In (i + 1) (getAdjacent g i) /\
   (i + 1) mod width g = 0 /\ (i + 1) / width g = i / width g + 1) /\
  (2 <= width g -> 0 < i < Z.of_nat (length (board g)) -> i mod width g = 0 ->
   In (i - 1) (getAdjacent g i) /\
   (i - 1) mod width g = width g - 1 /\ (i - 1) / width g = i / width g - 1).
Proof.
  split; [|split].
  - intros j Hlen. rewrite getAdjacent_In, Hlen. reflexivity.
  - intros Hw Hi Hmod Hlast. split.
    + apply getAdjacent_In. split; [simpl; tauto | lia].
    + pose proof (Z.div_mod i (width g) ltac:(lia)) as Hdm.
      assert (Heq : i + 1 = (i / width g + 1) * width g) by lia.
      rewrite Heq. split.
      * apply Z_mod_mult.
      * apply Z_div_mult. lia.
  - intros Hw Hi Hmod. split.
    + apply getAdjacent_In. split; [simpl; tauto | lia].
    + pose proof (Z.div_mod i (width g) ltac:(lia)) as Hdm.
      assert (Heq : i - 1 = (i / width g - 1) * width g + (width g - 1)) by lia.
      rewrite Heq. split.
      * rewrite Z.add_comm, Z_mod_plus_full. apply Z.mod_small. lia.
      * rewrite Z.add_comm, Z_div_plus_full by lia.
        rewrite Z.div_small by lia. lia.
Qed.

Lemma adjacency_wraps_witness :
  In 3 (getAdjacent board3x3 2) /\ In 2 (getAdjacent board3x3 3) /\
  (In 6 (getAdjacent board3x3 2) <->
   In 6 [2 - 4; 2 - 3; 2 - 2; 2 - 1; 2 + 1; 2 + 2; 2 + 3; 2 + 4] /\ 0 <= 6 < 3 * 3).
Proof.
  split; [|split].
  - apply (proj1 (proj2 (adjacency_wraps board3x3 2))); simpl; try reflexivity; lia.
  - apply (proj2 (proj2 (adjacency_wraps board3x3 3))); simpl; try reflexivity; lia.
  - apply (proj1 (adjacency_wraps board3x3 2) 6). reflexivity.
Defined.

(** A frame whose word is a whole word of three letters or more collects it. *)
Lemma backTrack_emits fuel x c d m u m' :
  (3 <= String.length x)%nat -> hasSubString (trie (this m)) x true = Ok true ->
  backTrack fuel x c d foundWord m = Ok (u, m') -> In x (words m').
Proof.
  intros Hlen Hq H. destruct fuel as [|fuel]; [discriminate|].
  rewrite backTrack_S in H.
  apply M_bind_Ok in H as (isWord & m1 & H1 & H).
  rewrite isWordHere_run, Hq in H1.
  apply Nat.leb_le in Hlen. rewrite Hlen in H1. injection H1 as <- <-.
  apply M_bind_Ok in H as (u2 & m2 & H2 & H).
  apply foundWord_In in H2.
  apply M_bind_Ok in H as (adjacent & m3 & H3 & H).
  injection H3 as <- <-.
  assert (P : post m2 m').
  { eapply forOf_post; [|exact H].
    intros y m0 u0 m0'. apply visit_post.
    intros. eapply backTrack_post. eassumption. }
  destruct (post_grow _ _ P) as [new ->]. apply in_or_app. auto.
Qed.

Lemma hasSubString_word_prefix (t : Trie) (x : string) :
  hasSubString t x true = Ok true -> hasSubString t x false = Ok true.
Proof.
  unfold hasSubString. intros H.
  apply hasSubString_from_prefix with (ls2 := []) (t := true).
  rewrite app_nil_r. assumption.
Qed.

(** From a starting cell that is its own neighbour, the search extends the
    current word by the letter of that same cell. *)
Lemma backTrack_own_letter fuel w i d m ws l :
  In i (getAdjacent (this m) i) ->
  board_at (board (this m)) i = Some l ->
  path m = [] ->
  built (trie (this m)) ws ->
  (length (board (this m)) < fuel)%nat ->
  (3 <= String.length (w ++ l))%nat ->
  hasSubString (trie (this m)) (w ++ l) true = Ok true ->
  exists m', backTrack fuel w i d foundWord m = Ok (tt, m') /\ In (w ++ l)%string (words m').
Proof.
  intros Hadj Hl Hp Hb Hfuel Hlen Hq.
  destruct (backTrack_total fuel w i d m ws Hb) as [m' H].
  { rewrite Hp, unvisited_nil. assumption. }
  exists m'. split; [assumption|].
  destruct fuel as [|fuel]; [discriminate|].
  rewrite backTrack_S in H.
  apply M_bind_Ok in H as (isWord & m1 & H1 & H).
  apply isWordHere_Ok in H1 as [-> Hword].
  apply M_bind_Ok in H as (u2 & m2 & H2 & H).
  assert (P2 : post m m2).
  { destruct isWord.
    - destruct Hword as [Hlen' Hq']; [reflexivity|]. eapply foundWord_post; eassumption.
    - injection H2 as _ <-. apply post_refl. }
  apply M_bind_Ok in H as (adjacent & m3 & H3 & H).
  injection H3 as <- <-. rewrite (post_this _ _ P2) in H.
  destruct (in_split _ _ Hadj) as (l1 & l2 & Hsplit). rewrite Hsplit in H.
  rewrite forOf_app in H.
  apply M_bind_Ok in H as (u3 & m3 & H3 & H). simpl in H.
  apply M_bind_Ok in H as (u4 & m4 & H4 & H).
  assert (Hrec : forall w' c' d' m0 u0 m0',
             backTrack fuel w' c' d' foundWord m0 = Ok (u0, m0') -> post m0 m0').
  { intros. eapply backTrack_post. eassumption. }
  assert (P3 : post m2 m3).
  { eapply forOf_post; [|exact H3]. intros y m0 u0 m0'. apply visit_post. exact Hrec. }
  assert (P5 : post m4 m').
  { eapply forOf_post; [|exact H]. intros y m0 u0 m0'. apply visit_post. exact Hrec. }
  pose proof (post_trans _ _ _ P2 P3) as P. destruct P as [Ht3 Hp3 _ _ _].
  rewrite visit_run, Hp3, Hp, Ht3, Hl in H4. simpl in H4.
  change (concat_letter w (Some l)) with (w ++ l)%string in H4.
  rewrite (hasSubString_word_prefix _ _ Hq) in H4.
  destruct (backTrack fuel (w ++ l) i (d + 1) foundWord (pushed m3 i))
    as [[u5 m5]| |] eqn:H5; try discriminate.
  injection H4 as Hm4. subst m4.
  apply backTrack_emits in H5; [|assumption|simpl; rewrite Ht3; assumption].
  destruct (post_grow _ _ P5) as [new ->]. apply in_or_app. left. exact H5.
Qed.

Lemma filter_twice {A : Type} (f : A -> bool) (l1 l2 l3 : list A) (x : A) :
  f x = true -> ~ List.NoDup (List.filter f (l1 ++ x :: l2 ++ x :: l3)).
Proof.
  intros Hf Hnd. rewrite List.filter_app in Hnd. simpl in Hnd. rewrite Hf in Hnd.
  apply NoDup_remove_2 in Hnd. apply Hnd. apply in_or_app. right.
  apply filter_In. split; [|exact Hf].
  apply in_or_app. right. left. reflexivity.
Qed.

(** C10. On a board one cell wide, the neighbours of a cell [i] of the
    board contain [i] itself, [i - 2] and [i + 2] when these are cells of
    the board, and the list has duplicates. So the search started at [i]
    extends a word [w] by the letter [l] of [i] itself, and collects
    [w ++ l] when that is a whole word of three letters or more. *)
Theorem one_column_self_adjacent (g : BoggleGame) (i : Z) :
  width g = 1 -> isValidCell g i = true ->
  In i (getAdjacent g i) /\
  (isValidCell g (i - 2) = true -> In (i - 2) (getAdjacent g i)) /\
  (isValidCell g (i + 2) = true -> In (i + 2) (getAdjacent g i)) /\
  ~ List.NoDup (getAdjacent g i) /\
  (forall fuel w d l ws ws0,
     board_at (board g) i = Some l ->
     built (trie g) ws ->
     (length (board g) < fuel)%nat ->
     (3 <= String.length (w ++ l))%nat ->
     hasSubString (trie g) (w ++ l) true = Ok true ->
     exists m', backTrack fuel w i d foundWord {| this := g; path := []; words := ws0 |}
                = Ok (tt, m') /\
                In (w ++ l)%string (words m')).
Proof.
  intros Hw Hv.
  assert (Hi : In i (getAdjacent g i)).
  { apply getAdjacent_In. apply isValidCell_spec in Hv.
    split; [|assumption]. rewrite Hw. simpl. right. right. left. lia. }
  split; [assumption|]. split; [|split; [|split]].
  - intros H2. apply getAdjacent_In. apply isValidCell_spec in H2.
    split; [|assumption]. rewrite Hw. simpl. left. lia.
  - intros H2. apply getAdjacent_In. apply isValidCell_spec in H2.
    split; [|assumption]. rewrite Hw. simpl. do 7 right. left. lia.
  - unfold getAdjacent. rewrite Hw.
    replace (i - (1 - 1)) with i by lia. replace (i + (1 - 1)) with i by lia.
    apply (filter_twice _ [i - (1 + 1); i - 1] [i - 1; i + 1] [i + 1; i + (1 + 1)] i).
    assumption.
  - intros fuel w d l ws ws0 Hl Hb Hfuel Hlen Hq.
    apply backTrack_own_letter with ws; simpl; solve [assumption | reflexivity].
Qed.

Lemma one_column_self_adjacent_witness :
  exists g, column_ab_c = Ok g /\
    In 0 (getAdjacent g 0) /\ ~ List.NoDup (getAdjacent g 0) /\
    exists m', backTrack 3 "ab" 0 0 foundWord {| this := g; path := []; words := [] |}
               = Ok (tt, m') /\ In "abab" (words m').
Proof.
  destruct (BoggleGame_new_built 1 2 ["ab"; "c"] ["abab"]) as (t & Hg & Hb).
  eexists. split; [exact Hg|].
  match goal with |- In 0 (getAdjacent ?g 0) /\ _ =>
    destruct (one_column_self_adjacent g 0) as (H1 & _ & _ & H4 & H5);
      [reflexivity | reflexivity | ] end.
  split; [exact H1|]. split; [exact H4|].
  apply (H5 3%nat "ab" 0 "ab" ["abab"] []).
  - reflexivity.
  - exact Hb.
  - simpl. lia.
  - simpl. lia.
  - apply built_complete with ["abab"]; [exact Hb | left; reflexivity].
Defined.

(** The same on single letters: from the cell 0 the search spells a, a, b
    along the cells 0, 0, 1. *)
Example column_ab_solve : play 1 2 ["a"; "b"] ["aab"] = Ok ["aab"].
Proof. vm_compute. reflexivity. Qed.

(** ** C8: [solve] changes nothing *)

(** C8. On the game that [new BoggleGame] returns, whatever the arrays
    [path] and [words] of the memory hold, [solve()] returns a list [ws] and
    leaves the game as it was: the same board, dictionary and trie, with
    the same nodes, children and terminal marks. A second call returns the
    same list and leaves the same game again. *)
Theorem solve_no_side_effect (w h : Z) (b d : list string) :
  exists g ws,
    BoggleGame_new w h b d = Ok g /\
    forall p0 ws0, exists m',
      solve {| this := g; path := p0; words := ws0 |} = Ok (ws, m') /\
      this m' = g /\
      exists m'', solve m' = Ok (ws, m'') /\ this m'' = g.
Proof.
  destruct (BoggleGame_new_built w h b d) as (t & Hg & Hb).
  set (g := {| width := w; height := h; board := b; dictionary := d; trie := t |}) in *.
  destruct (solve_total {| this := g; path := []; words := [] |} d Hb) as (ws & m0 & H0).
  exists g, ws. split; [assumption|].
  assert (Hsame : forall m, this m = g -> exists m',
             solve m = Ok (ws, m') /\ this m' = g).
  { intros m Hm.
    destruct (solve_total m d) as (ws1 & m1 & H1); [rewrite Hm; exact Hb|].
    pose proof (solve_this m {| this := g; path := []; words := [] |} Hm) as Hr.
    rewrite H1, H0 in Hr. simpl in Hr. injection Hr as ->.
    exists m1. split; [assumption|].
    destruct (solve_post _ _ _ H1) as [Ht _]. congruence. }
  intros p0 ws0.
  destruct (Hsame {| this := g; path := p0; words := ws0 |}) as (m' & H1 & Ht1);
    [reflexivity|].
  exists m'. split; [assumption|]. split; [assumption|].
  apply Hsame. assumption.
Qed.

(** ** The other scenarios of the search *)

(** A single cell and no word of three letters. *)
Example scenario2 : play 1 1 ["a"] ["a"; "ab"] = Ok [].
Proof. vm_compute. reflexivity. Qed.

(** Two words that share the prefix an; an itself is too short. *)
Example scenario3 : play 2 2 ["a"; "n"; "d"; "t"] ["an"; "and"; "ant"] = Ok ["and"; "ant"].
Proof. vm_compute. reflexivity. Qed.

(** * Further properties of the trie *)

(** ** Adding a word twice *)

Lemma markTerminal_id (n : TrieNode) : isTerminal n = true -> markTerminal n = n.
Proof. destruct n as [p c l hc t]. simpl. intros ->. reflexivity. Qed.

(** [addWord] of a word that is a whole word already changes no node. *)
Lemma addWord_from_present (ls : list ascii) : forall (h : Store) (c : loc),
  hasSubString_from h (Some c) ls true = Ok true ->
  addWord_from h (Some c) ls = Ok h.
Proof.
  induction ls as [|l rest IH]; intros h c H; simpl in *;
    destruct (deref h (Some c)) as [[c' n]| |] eqn:Hd; try discriminate;
    apply deref_Some in Hd as [-> Hn]; simpl in *.
  - injection H as Ht. rewrite (markTerminal_id n Ht).
    rewrite (list_insert_id h c n Hn). reflexivity.
  - destruct (hasChild n l) eqn:Hc; simpl in *; [|discriminate].
    rewrite (deref_lookup _ _ _ Hn). simpl.
    apply hasChild_true in Hc as [c1 Hc1]. unfold getChild in *. rewrite Hc1 in *.
    apply IH. assumption.
Qed.

(** The store of a trie built through the interface, as [addWord] finds it. *)
Lemma built_addWord_spec (t : Trie) (ws : list string) (w : string) (t' : Trie) :
  built t ws -> addWord t w = Ok t' ->
  built t' (ws ++ [w]) /\ hasSubString t' w true = Ok true.
Proof.
  intros Hb Ha. split; [econstructor; eassumption|].
  apply built_complete with (ws ++ [w]); [econstructor; eassumption|].
  apply in_or_app. right. left. reflexivity.
Qed.

(** Insertion is idempotent: [addWord] of a word that the trie holds as a
    whole word, in any case of its letters, returns the trie as it is; so a
    second [addWord] of the same word changes nothing. *)
Theorem addWord_idempotent :
  (forall t w, hasSubString t w true = Ok true -> addWord t w = Ok t) /\
  (forall t ws w t', built t ws -> addWord t w = Ok t' -> addWord t' w = Ok t').
Proof.
  assert (H1 : forall t w, hasSubString t w true = Ok true -> addWord t w = Ok t).
  { intros [r h] w H. unfold hasSubString, addWord in *. simpl in *.
    rewrite (addWord_from_present _ _ _ H). reflexivity. }
  split; [exact H1|].
  intros t ws w t' Hb Ha. apply H1.
  apply (built_addWord_spec t ws w t' Hb Ha).
Qed.

Lemma addWord_idempotent_witness :
  exists t t', Trie_new ["Tea"; "ten"] = Ok t /\ addWord t "TEN" = Ok t' /\
               t' = t /\ addWord t' "TEN" = Ok t'.
Proof.
  destruct (Trie_new_built ["Tea"; "ten"]) as (t & Ht & Hb).
  destruct (built_addWord t _ "TEN" Hb) as [t' Ha].
  exists t, t'. split; [exact Ht|]. split; [exact Ha|]. split.
  - assert (Hq : hasSubString t "TEN" true = Ok true).
    { rewrite (hasSubString_case t "TEN" "ten" true eq_refl).
      apply built_complete with ["Tea"; "ten"]; [exact Hb | right; left; reflexivity]. }
    pose proof (proj1 addWord_idempotent t "TEN" Hq) as Hid. congruence.
  - apply (proj2 addWord_idempotent t _ "TEN" t' Hb Ha).
Defined.

(** ** The fields of the nodes *)

Lemma node_inv_weaken (h : Store) lbl ws w :
  node_inv h lbl ws -> node_inv h lbl (ws ++ [w]).
Proof.
  intros [Hr Hp Hf Hc]. split; try assumption.
  intros r n Hn Hr0. destruct (Hc r n Hn Hr0) as (w0 & s & Hin & Hs).
  exists w0, s. split; [apply in_or_app; left; assumption | assumption].
Qed.

Lemma node_inv_new : node_inv [TrieNode_new None "root"] (fun _ => []) [].
Proof.
  split.
  - eexists. split; [reflexivity|]. split; reflexivity.
  - intros [|r] n Hn Hr0; [contradiction | discriminate].
  - intros [|r] n Hn; simpl in Hn; [|discriminate]. injection Hn as <-. simpl.
    split; [discriminate | intros H; contradiction].
  - intros [|r] n Hn Hr0; [contradiction | discriminate].
Qed.

Lemma node_inv_mark (h : Store) lbl ws c n :
  node_inv h lbl ws -> h !! c = Some n ->
  node_inv (<[c := markTerminal n]> h) lbl ws.
Proof.
  intros [Hr Hp Hf Hc] Hn.
  assert (Hlt : (c < length h)%nat) by (eapply lookup_lt_Some; eassumption).
  assert (Hold : forall r n0, <[c := markTerminal n]> h !! r = Some n0 ->
            exists n1, h !! r = Some n1 /\ parent n0 = parent n1 /\
                       children n0 = children n1 /\ letter n0 = letter n1 /\
                       hasChildren n0 = hasChildren n1).
  { intros r n0 Hn0. destruct (decide (r = c)) as [->|Hrc].
    - rewrite list_lookup_insert_eq in Hn0 by assumption. injection Hn0 as <-.
      exists n. simpl. auto.
    - rewrite list_lookup_insert_ne in Hn0 by congruence. exists n0. auto. }
  pose proof (ext_mark h c n Hn) as He.
  split.
  - destruct Hr as (n0 & H0 & Hpar & Hlet).
    destruct (He _ _ H0) as (n0' & H0' & _ & _).
    destruct (Hold _ _ H0') as (n1 & H1 & Hp1 & _ & Hl1 & _).
    exists n0'. split; [assumption|]. split; congruence.
  - intros r n0 Hn0 Hr0.
    destruct (Hold _ _ Hn0) as (n1 & H1 & Hp1 & _ & Hl1 & _).
    destruct (Hp r n1 H1 Hr0) as (p & pn & l & Hpar & Hpn & Hch & Hlet).
    destruct (He _ _ Hpn) as (pn' & Hpn' & Hsub & _).
    exists p, pn', l. split; [congruence|]. split; [assumption|].
    split; [eapply lookup_weaken; eassumption | congruence].
  - intros r n0 Hn0.
    destruct (Hold _ _ Hn0) as (n1 & H1 & _ & Hc1 & _ & Hh1).
    rewrite Hc1, Hh1. apply (Hf r n1 H1).
  - intros r n0 Hn0 Hr0.
    destruct (Hold _ _ Hn0) as (n1 & H1 & _). eapply Hc; eassumption.
Qed.

Lemma node_inv_grow (h : Store) lbl ws c n l :
  node_inv h lbl ws -> h !! c = Some n -> children n !! l = None ->
  (exists w s, In w ws /\ split (toLowerCase w) = (lbl c ++ [l]) ++ s) ->
  node_inv (grow h c n l) (grow_lbl h lbl c l) ws.
Proof.
  intros [Hr Hp Hf Hc] Hn Hl Hw.
  assert (Hlt : (c < length h)%nat) by (eapply lookup_lt_Some; eassumption).
  assert (Hlbl : forall r, (r < length h)%nat -> grow_lbl h lbl c l r = lbl r).
  { intros r Hrlt. unfold grow_lbl. destruct (decide (r = length h)); [lia | reflexivity]. }
  pose proof (ext_grow h c n l Hn Hl) as He.
  split.
  - destruct Hr as (n0 & H0 & Hpar & Hlet).
    destruct (He _ _ H0) as (n0' & H0' & _ & _).
    exists n0'. split; [assumption|].
    destruct (grow_lookup _ _ _ _ _ _ Hn H0') as [[E ->] | [[_ H0''] | [E _]]].
    + subst c. assert (n = n0) as -> by congruence. simpl. auto.
    + assert (n0' = n0) as -> by congruence. auto.
    + lia.
  - intros r n0 Hn0 Hr0.
    destruct (grow_lookup _ _ _ _ _ _ Hn Hn0) as [[-> ->] | [[Hrc Hn0'] | [-> ->]]].
    + destruct (Hp c n Hn Hr0) as (p & pn & l0 & Hpar & Hpn & Hch & Hlet).
      destruct (He _ _ Hpn) as (pn' & Hpn' & Hsub & _).
      exists p, pn', l0. simpl. split; [assumption|]. split; [assumption|].
      split; [eapply lookup_weaken; eassumption | assumption].
    + destruct (Hp r n0 Hn0' Hr0) as (p & pn & l0 & Hpar & Hpn & Hch & Hlet).
      destruct (He _ _ Hpn) as (pn' & Hpn' & Hsub & _).
      exists p, pn', l0. split; [assumption|]. split; [assumption|].
      split; [eapply lookup_weaken; eassumption | assumption].
    + exists c, (setChild n l (length h)), l. simpl.
      split; [reflexivity|]. split; [apply grow_lookup_c; assumption|].
      split; [apply lookup_insert_eq | reflexivity].
  - intros r n0 Hn0.
    destruct (grow_lookup _ _ _ _ _ _ Hn Hn0) as [[-> ->] | [[Hrc Hn0'] | [-> ->]]].
    + simpl. split; [intros _; apply insert_non_empty | reflexivity].
    + apply (Hf r n0 Hn0').
    + simpl. split; [discriminate | intros H; contradiction].
  - intros r n0 Hn0 Hr0.
    destruct (grow_lookup _ _ _ _ _ _ Hn Hn0) as [[-> ->] | [[Hrc Hn0'] | [-> ->]]].
    + rewrite Hlbl by assumption. eapply Hc; eassumption.
    + rewrite Hlbl by (eapply lookup_lt_Some; eassumption). eapply Hc; eassumption.
    + unfold grow_lbl. destruct (decide (length h = length h)); [|contradiction].
      assumption.
Qed.

(** [addWord] keeps both invariants, and makes one node at most for each
    letter of the word. *)
Lemma addWord_from_full (ls : list ascii) : forall (h : Store) (c : loc) lbl ws w,
  trie_inv h lbl ws -> node_inv h lbl (ws ++ [w]) -> (c < length h)%nat ->
  split (toLowerCase w) = lbl c ++ ls ->
  exists h' lbl',
    addWord_from h (Some c) ls = Ok h' /\
    trie_inv h' lbl' (ws ++ [w]) /\ node_inv h' lbl' (ws ++ [w]) /\
    (length h <= length h' <= length h + length ls)%nat.
Proof.
  induction ls as [|l rest IH]; intros h c lbl ws w Hinv Hninv Hlt Hw;
    destruct (lookup_lt_is_Some_2 h c Hlt) as [n Hn].
  - exists (<[c := markTerminal n]> h), lbl. simpl.
    rewrite (deref_lookup _ _ _ Hn). simpl. rewrite app_nil_r in Hw.
    split; [reflexivity|]. split; [apply trie_inv_mark; assumption|].
    split; [apply node_inv_mark; assumption|].
    rewrite length_insert. lia.
  - destruct (children n !! l) as [c1|] eqn:Hc.
    + assert (Hhc : hasChild n l = true) by (unfold hasChild; rewrite Hc; reflexivity).
      destruct (inv_child _ _ _ Hinv _ _ _ _ Hn Hc) as [Hb Hl].
      destruct (IH h c1 lbl ws w Hinv Hninv ltac:(lia)) as (h' & lbl' & Ha & Hi & Hni & Hlen).
      { rewrite Hl, <- app_assoc. assumption. }
      exists h', lbl'. split; [|split; [assumption|split; [assumption|simpl; lia]]].
      simpl. rewrite (deref_lookup _ _ _ Hn). simpl. rewrite Hhc. simpl.
      rewrite (deref_lookup _ _ _ Hn). simpl. unfold getChild. rewrite Hc.
      assumption.
    + assert (Hhc : hasChild n l = false) by (unfold hasChild; rewrite Hc; reflexivity).
      pose proof (trie_inv_grow h lbl ws c n l Hinv Hn Hc) as Hinv1.
      assert (Hninv1 : node_inv (grow h c n l) (grow_lbl h lbl c l) (ws ++ [w])).
      { apply node_inv_grow; try assumption.
        exists w, rest. split; [apply in_or_app; right; left; reflexivity|].
        rewrite <- app_assoc. assumption. }
      destruct (IH (grow h c n l) (length h) (grow_lbl h lbl c l) ws w Hinv1 Hninv1)
        as (h' & lbl' & Ha & Hi & Hni & Hlen).
      { rewrite grow_length. lia. }
      { unfold grow_lbl. destruct (decide (length h = length h)); [|contradiction].
        rewrite <- app_assoc. assumption. }
      rewrite grow_length in Hlen.
      exists h', lbl'. split; [|split; [assumption|split; [assumption|simpl; lia]]].
      simpl. rewrite (deref_lookup _ _ _ Hn). simpl. rewrite Hhc. simpl.
      fold (grow h c n l).
      rewrite (deref_lookup _ _ _ (grow_lookup_c h c n l Hn)). simpl.
      unfold getChild. simpl. rewrite lookup_insert_eq. assumption.
Qed.

Lemma split_length (s : string) : length (split s) = String.length s.
Proof. induction s as [|x s IH]; simpl; [reflexivity | rewrite IH; reflexivity]. Qed.

Lemma toLowerCase_length (s : string) : String.length (toLowerCase s) = String.length s.
Proof. induction s as [|x s IH]; simpl; [reflexivity | rewrite IH; reflexivity]. Qed.

Lemma addWord_full (t : Trie) lbl ws w :
  root t = 0%nat -> trie_inv (nodes t) lbl ws -> node_inv (nodes t) lbl ws ->
  exists t' lbl',
    addWord t w = Ok t' /\ root t' = 0%nat /\
    trie_inv (nodes t') lbl' (ws ++ [w]) /\ node_inv (nodes t') lbl' (ws ++ [w]) /\
    (length (nodes t) <= length (nodes t') <= length (nodes t) + String.length w)%nat.
Proof.
  intros Hroot Hinv Hninv.
  destruct (addWord_from_full (split (toLowerCase w)) (nodes t) 0%nat lbl ws w Hinv)
    as (h' & lbl' & Ha & Hi & Hni & Hlen).
  { apply node_inv_weaken. assumption. }
  { apply (inv_nonempty _ _ _ Hinv). }
  { rewrite (inv_root _ _ _ Hinv). reflexivity. }
  rewrite split_length, toLowerCase_length in Hlen.
  exists {| root := root t; nodes := h' |}, lbl'.
  unfold addWord. rewrite Hroot. simpl. rewrite Ha. simpl.
  split; [reflexivity|]. split; [reflexivity|]. auto.
Qed.

Lemma built_full (t : Trie) (ws : list string) :
  built t ws ->
  root t = 0%nat /\
  exists lbl, trie_inv (nodes t) lbl ws /\ node_inv (nodes t) lbl ws.
Proof.
  induction 1 as [|t ws w t' Hb [Hroot (lbl & Hinv & Hninv)] Ha].
  - split; [reflexivity|]. eexists. split; [apply trie_inv_new | apply node_inv_new].
  - destruct (addWord_full t lbl ws w Hroot Hinv Hninv)
      as (t1 & lbl' & Ha1 & Hr1 & Hi1 & Hni1 & _).
    assert (t1 = t') as -> by congruence. eauto.
Qed.

Lemma lower_ascii_idem (c : ascii) : lower_ascii (lower_ascii c) = lower_ascii c.
Proof. destruct c as [[] [] [] [] [] [] [] []]; reflexivity. Qed.

Lemma toLowerCase_idem (s : string) : toLowerCase (toLowerCase s) = toLowerCase s.
Proof.
  induction s as [|x s IH]; simpl; [reflexivity|].
  rewrite lower_ascii_idem, IH. reflexivity.
Qed.

(** The node that a successful prefix query ends on. *)
Lemma hasSubString_from_reach (h : Store) lbl ws (ls : list ascii) : forall c,
  trie_inv h lbl ws -> (c < length h)%nat ->
  hasSubString_from h (Some c) ls false = Ok true ->
  exists r, (r < length h)%nat /\ lbl r = lbl c ++ ls /\ (r = c \/ r <> 0%nat).
Proof.
  induction ls as [|l rest IH]; intros c Hinv Hlt H.
  - exists c. rewrite app_nil_r. auto.
  - simpl in H.
    destruct (deref h (Some c)) as [[c' n]| |] eqn:Hd; try discriminate.
    apply deref_Some in Hd as [-> Hn]. simpl in H.
    unfold hasChild, getChild in H.
    destruct (children n !! l) as [c1|] eqn:Hc; simpl in H; [|discriminate].
    destruct (inv_child _ _ _ Hinv _ _ _ _ Hn Hc) as [Hb Hl].
    destruct (IH c1 Hinv ltac:(lia) H) as (r & Hr & Hlr & Hor).
    exists r. split; [assumption|]. split.
    + rewrite Hlr, Hl, <- app_assoc. reflexivity.
    + right. destruct Hor as [-> | ?]; [lia | assumption].
Qed.

Lemma split_string (ls : list ascii) : split (string_of_list_ascii ls) = ls.
Proof. apply list_ascii_of_string_of_list_ascii. Qed.

(** ** What the queries answer *)

Lemma built_whole_word (t : Trie) (ws : list string) (q : string) :
  built t ws ->
  exists b, hasSubString t q true = Ok b /\
            (b = true <-> exists w, In w ws /\ toLowerCase w = toLowerCase q).
Proof.
  intros Hb. destruct (built_total t ws q true Hb) as [b Hq].
  exists b. split; [assumption|]. split.
  - intros ->. apply (built_sound t ws q Hb Hq).
  - intros (w & Hin & Hw).
    pose proof (built_complete t ws w Hb Hin) as Hc.
    rewrite (hasSubString_case t w q true Hw) in Hc. congruence.
Qed.

(** The whole-word query never fails on a trie built through the interface
    and answers [true] exactly on the words passed to [addWord], compared
    without case. *)
Theorem hasSubString_whole_word (t : Trie) (ws : list string) (q : string) :
  built t ws ->
  exists b, hasSubString t q true = Ok b /\
            (b = true <-> exists w, In w ws /\ toLowerCase w = toLowerCase q).
Proof. apply built_whole_word. Qed.

Lemma hasSubString_whole_word_witness :
  exists t, Trie_new ["Tea"; "ten"] = Ok t /\
            hasSubString t "tEa" true = Ok true /\
            hasSubString t "te" true = Ok false.
Proof.
  destruct (Trie_new_built ["Tea"; "ten"]) as (t & Ht & Hb).
  exists t. split; [exact Ht|]. split.
  - destruct (hasSubString_whole_word t _ "tEa" Hb) as (b & Hq & Hiff).
    rewrite Hq. f_equal. apply Hiff. exists "Tea". split; [left|]; reflexivity.
  - destruct (hasSubString_whole_word t _ "te" Hb) as (b & Hq & Hiff).
    rewrite Hq. f_equal. destruct b; [|reflexivity].
    destruct (proj1 Hiff eq_refl) as (w & [<- | [<- | []]] & Hw); discriminate.
Defined.

Lemma built_prefix_query (t : Trie) (ws : list string) (q : string) :
  built t ws ->
  exists b, hasSubString t q false = Ok b /\
            (b = true <->
             toLowerCase q = EmptyString \/
             exists w s, In w ws /\ toLowerCase w = (toLowerCase q ++ s)%string).
Proof.
  intros Hb. destruct (built_total t ws q false Hb) as [b Hq].
  exists b. split; [assumption|]. split.
  - intros ->. destruct (built_full t ws Hb) as [Hroot (lbl & Hinv & Hninv)].
    unfold hasSubString in Hq. rewrite Hroot in Hq.
    destruct (hasSubString_from_reach _ _ _ _ _ Hinv (inv_nonempty _ _ _ Hinv) Hq)
      as (r & Hr & Hlr & Hor).
    rewrite (inv_root _ _ _ Hinv) in Hlr. simpl in Hlr.
    destruct (decide (r = 0%nat)) as [->|Hr0].
    + left. rewrite (inv_root _ _ _ Hinv) in Hlr. apply split_inj. simpl. congruence.
    + right. destruct (lookup_lt_is_Some_2 _ _ Hr) as [n Hn].
      destruct (ninv_cover _ _ _ Hninv r n Hn Hr0) as (w & s & Hin & Hs).
      exists w, (string_of_list_ascii s). split; [assumption|].
      apply split_inj. rewrite split_app, split_string. congruence.
  - intros [He | (w & s & Hin & Hw)].
    + rewrite (hasSubString_case t q EmptyString false He) in Hq.
      unfold hasSubString in Hq. simpl in Hq. congruence.
    + pose proof (built_complete t ws w Hb Hin) as Hc.
      rewrite (hasSubString_case t w (toLowerCase q ++ s) true) in Hc.
      * apply hasSubString_prefix in Hc.
        rewrite (hasSubString_case t (toLowerCase q) q false) in Hc; [congruence|].
        apply toLowerCase_idem.
      * rewrite <- Hw. symmetry. apply toLowerCase_idem.
Qed.

(** The prefix query never fails on a trie built through the interface and
    answers [true] exactly on the empty string and on the strings that
    begin a word passed to [addWord], compared without case. *)
Theorem hasSubString_prefix_query (t : Trie) (ws : list string) (q : string) :
  built t ws ->
  exists b, hasSubString t q false = Ok b /\
            (b = true <->
             toLowerCase q = EmptyString \/
             exists w s, In w ws /\ toLowerCase w = (toLowerCase q ++ s)%string).
Proof. apply built_prefix_query. Qed.

Lemma hasSubString_prefix_query_witness :
  exists t, Trie_new ["Tea"; "ten"] = Ok t /\
            hasSubString t "TE" false = Ok true /\
            hasSubString t "ta" false = Ok false.
Proof.
  destruct (Trie_new_built ["Tea"; "ten"]) as (t & Ht & Hb).
  exists t. split; [exact Ht|]. split.
  - destruct (hasSubString_prefix_query t _ "TE" Hb) as (b & Hq & Hiff).
    rewrite Hq. f_equal. apply Hiff. right. exists "Tea", "a".
    split; [left|]; reflexivity.
  - destruct (hasSubString_prefix_query t _ "ta" Hb) as (b & Hq & Hiff).
    rewrite Hq. f_equal. destruct b; [|reflexivity].
    destruct (proj1 Hiff eq_refl) as [He | (w & s & [<- | [<- | []]] & Hw)];
      simpl in *; discriminate.
Defined.

(** ** The nodes of a trie *)

(** [addWord] only grows the trie: it makes one node at most for each
    letter of the word, and every node that was there is still there, with
    the children and the terminal mark it had. *)
Theorem addWord_grows (t : Trie) (ws : list string) (w : string) (t' : Trie) :
  built t ws -> addWord t w = Ok t' ->
  (length (nodes t) <= length (nodes t') <= length (nodes t) + String.length w)%nat /\
  forall r n, nodes t !! r = Some n ->
    exists n', nodes t' !! r = Some n' /\
               (forall l c, getChild n l = Some c -> getChild n' l = Some c) /\
               (isTerminal n = true -> isTerminal n' = true).
Proof.
  intros Hb Ha. destruct (built_full t ws Hb) as [Hroot (lbl & Hinv & Hninv)].
  split.
  - destruct (addWord_full t lbl ws w Hroot Hinv Hninv) as (t1 & lbl' & Ha1 & _ & _ & _ & Hlen).
    assert (t1 = t') as -> by congruence. assumption.
  - destruct (addWord_spec t lbl ws w Hroot Hinv) as (t1 & lbl' & Ha1 & _ & _ & He & _).
    assert (t1 = t') as -> by congruence.
    intros r n Hn. destruct (He r n Hn) as (n' & Hn' & Hsub & Hterm).
    exists n'. split; [assumption|]. split; [|assumption].
    intros l c Hc. unfold getChild in *. eapply lookup_weaken; eassumption.
Qed.

Lemma addWord_grows_witness :
  exists t t', Trie_new ["tea"] = Ok t /\ addWord t "ten" = Ok t' /\
               (length (nodes t) <= length (nodes t') <= length (nodes t) + 3)%nat.
Proof.
  destruct (Trie_new_built ["tea"]) as (t & Ht & Hb).
  destruct (built_addWord t _ "ten" Hb) as [t' Ha].
  exists t, t'. split; [exact Ht|]. split; [exact Ha|].
  apply (addWord_grows t _ "ten" t' Hb Ha).
Defined.

(** The trie has no more nodes than one for the root and one for each
    letter of the words passed to [addWord]. *)
Theorem trie_size (t : Trie) (ws : list string) :
  built t ws ->
  (1 <= length (nodes t) <= 1 + list_sum (map String.length ws))%nat.
Proof.
  induction 1 as [|t ws w t' Hb IH Ha]; [simpl; lia|].
  destruct (built_full t ws Hb) as [Hroot (lbl & Hinv & Hninv)].
  destruct (addWord_full t lbl ws w Hroot Hinv Hninv) as (t1 & lbl' & Ha1 & _ & _ & _ & Hlen).
  assert (t1 = t') as -> by congruence.
  rewrite map_app, list_sum_app. simpl. lia.
Qed.

Lemma trie_size_witness :
  exists t, Trie_new ["tea"; "ten"] = Ok t /\ (1 <= length (nodes t) <= 1 + 6)%nat.
Proof.
  destruct (Trie_new_built ["tea"; "ten"]) as (t & Ht & Hb).
  exists t. split; [exact Ht|]. apply (trie_size t _ Hb).
Defined.

(** The fields [parent] and [letter] of the nodes: the root has no parent
    and holds the word root; any other node is the child that [getChild] of
    its parent gives for the one letter it holds. *)
Theorem node_parent_letter (t : Trie) (ws : list string) :
  built t ws ->
  (exists n0, nodes t !! root t = Some n0 /\ parent n0 = None /\ letter n0 = "root") /\
  (forall r n, nodes t !! r = Some n -> r <> root t ->
     exists p pn l, parent n = Some p /\ nodes t !! p = Some pn /\
                    getChild pn l = Some r /\ letter n = String l EmptyString).
Proof.
  intros Hb. destruct (built_full t ws Hb) as [Hroot (lbl & Hinv & Hninv)].
  rewrite Hroot. split.
  - apply (ninv_root _ _ _ Hninv).
  - apply (ninv_parent _ _ _ Hninv).
Qed.

Lemma node_parent_letter_witness :
  exists t, Trie_new ["ab"] = Ok t /\
    exists n p pn l, nodes t !! 2%nat = Some n /\ parent n = Some p /\
                     nodes t !! p = Some pn /\ getChild pn l = Some 2%nat /\
                     letter n = String l EmptyString.
Proof.
  destruct (Trie_new_built ["ab"]) as (t & Ht & Hb).
  exists t. split; [exact Ht|].
  assert (Hlen : nodes t !! 2%nat <> None).
  { vm_compute in Ht. injection Ht as <-. discriminate. }
  destruct (nodes t !! 2%nat) as [n|] eqn:Hn; [|contradiction].
  destruct (proj2 (node_parent_letter t _ Hb) 2%nat n Hn) as (p & pn & l & H).
  { destruct (built_inv t _ Hb) as [-> _]. discriminate. }
  exists n, p, pn, l. tauto.
Defined.

(** The field [hasChildren] of a node is true exactly when [hasChild] is
    true of some letter. *)
Theorem hasChildren_flag (t : Trie) (ws : list string) (r : nat) (n : TrieNode) :
  built t ws -> nodes t !! r = Some n ->
  (hasChildren n = true <-> exists l, hasChild n l = true).
Proof.
  intros Hb Hn. destruct (built_full t ws Hb) as [Hroot (lbl & Hinv & Hninv)].
  rewrite (ninv_flag _ _ _ Hninv r n Hn). split.
  - intros Hne. destruct (map_choose _ Hne) as (l & c & Hc).
    exists l. apply hasChild_true. eauto.
  - intros (l & [c Hc]%hasChild_true) He. rewrite He, lookup_empty in Hc. discriminate.
Qed.

Lemma hasChildren_flag_witness :
  exists t n, Trie_new ["a"] = Ok t /\ nodes t !! 0%nat = Some n /\
              hasChildren n = true.
Proof.
  destruct (Trie_new_built ["a"]) as (t & Ht & Hb).
  assert (Hq : hasSubString t "a" false = Ok true).
  { apply hasSubString_word_prefix.
    apply built_complete with ["a"]; [exact Hb | left; reflexivity]. }
  destruct (built_inv t _ Hb) as [Hroot (lbl & Hinv)].
  destruct (lookup_lt_is_Some_2 (nodes t) 0%nat (inv_nonempty _ _ _ Hinv)) as [n Hn].
  exists t, n. split; [exact Ht|]. split; [exact Hn|].
  apply (hasChildren_flag t _ 0%nat n Hb Hn). exists "a"%char.
  unfold hasSubString in Hq. rewrite Hroot in Hq. simpl in Hq.
  rewrite (deref_lookup _ _ _ Hn) in Hq. simpl in Hq.
  change (lower_ascii "a") with "a"%char in Hq.
  destruct (hasChild n "a"); [reflexivity | discriminate].
Defined.

(** * Further properties of the board *)

(** ** The neighbours of a cell *)

(** Adjacency goes both ways between cells of the board; on a board two
    cells wide or more no cell is its own neighbour, and on a board three
    cells wide or more the neighbours of a cell of the board have no
    duplicates. The list never holds more than eight cells, all of them on
    the board. *)
Theorem getAdjacent_symmetric (g : BoggleGame) (i j : Z) :
  In j (getAdjacent g i) ->
  isValidCell g j = true /\
  (isValidCell g i = true -> In i (getAdjacent g j)) /\
  (2 <= width g -> j <> i) /\
  (3 <= width g -> isValidCell g i = true -> List.NoDup (getAdjacent g i)) /\
  (length (getAdjacent g i) <= 8)%nat.
Proof.
  intros Hj. split; [eapply getAdjacent_valid; eassumption|].
  apply getAdjacent_In in Hj as [Hj Hb].
  split; [|split; [|split]].
  - intros Hi%isValidCell_spec. apply getAdjacent_In. split; [|assumption].
    simpl in *. lia.
  - intros Hw. simpl in Hj. lia.
  - intros Hw _. unfold getAdjacent. apply List.NoDup_filter.
    repeat (constructor; [simpl; lia|]). constructor.
  - unfold getAdjacent.
    etransitivity; [apply List.filter_length_le|]. simpl. lia.
Qed.

Lemma getAdjacent_symmetric_witness :
  In 4 (getAdjacent board3x3 0) /\ In 0 (getAdjacent board3x3 4) /\
  List.NoDup (getAdjacent board3x3 0).
Proof.
  assert (H : In 4 (getAdjacent board3x3 0)) by (vm_compute; tauto).
  destruct (getAdjacent_symmetric board3x3 0 4 H) as (_ & Hs & _ & Hn & _).
  split; [exact H|]. split; [apply Hs; reflexivity | apply Hn; [simpl; lia | reflexivity]].
Defined.

(** Away from the first and the last column the neighbours are those of the
    grid: on a board of [width * height] cells, the neighbours of the cell
    in row [r] and column [c], with [0 < c < width - 1], are the cells one
    row and one column away at most that are on the board, itself left
    out. *)
Theorem getAdjacent_inner_column (g : BoggleGame) (r c j : Z) :
  Z.of_nat (length (board g)) = width g * height g ->
  0 <= r < height g -> 0 < c < width g - 1 ->
  (In j (getAdjacent g (r * width g + c)) <->
   exists dr dc, -1 <= dr <= 1 /\ -1 <= dc <= 1 /\ (dr <> 0 \/ dc <> 0) /\
                 0 <= r + dr < height g /\
                 j = (r + dr) * width g + (c + dc)).
Proof.
  intros Hlen Hr Hc. rewrite getAdjacent_In, Hlen.
  set (w := width g) in *. set (h := height g) in *.
  split.
  - intros [Hj Hb]. simpl in Hj.
    assert (Hrow : forall dr dc, -1 <= dr <= 1 -> -1 <= dc <= 1 ->
              j = (r + dr) * w + (c + dc) -> 0 <= r + dr < h).
    { intros dr dc Hdr Hdc ->. split; nia. }
    destruct Hj as [E | [E | [E | [E | [E | [E | [E | [E | []]]]]]]]].
    + exists (-1), (-1). repeat split; try lia; apply (Hrow (-1) (-1)); lia.
    + exists (-1), 0. repeat split; try lia; apply (Hrow (-1) 0); lia.
    + exists (-1), 1. repeat split; try lia; apply (Hrow (-1) 1); lia.
    + exists 0, (-1). repeat split; try lia.
    + exists 0, 1. repeat split; try lia.
    + exists 1, (-1). repeat split; try lia; apply (Hrow 1 (-1)); lia.
    + exists 1, 0. repeat split; try lia; apply (Hrow 1 0); lia.
    + exists 1, 1. repeat split; try lia; apply (Hrow 1 1); lia.
  - intros (dr & dc & Hdr & Hdc & Hne & Hrow & ->). split; [|nia].
    assert (Edr : dr = -1 \/ dr = 0 \/ dr = 1) by lia.
    assert (Edc : dc = -1 \/ dc = 0 \/ dc = 1) by lia.
    simpl. destruct Edr as [-> | [-> | ->]], Edc as [-> | [-> | ->]]; lia.
Qed.

Lemma getAdjacent_inner_column_witness :
  In 8 (getAdjacent board3x3 (1 * 3 + 1)) /\ ~ In 4 (getAdjacent board3x3 (1 * 3 + 1)).
Proof.
  pose proof (fun j => getAdjacent_inner_column board3x3 1 1 j eq_refl
                         ltac:(simpl; lia) ltac:(simpl; lia)) as H.
  split.
  - apply H. exists 1, 1. simpl. lia.
  - intros (dr & dc & Hdr & Hdc & Hne & Hrow & E)%H. simpl in E. lia.
Defined.

(** * Further properties of the search *)

(** ** Strings *)

Lemma string_app_assoc (a b c : string) : ((a ++ b) ++ c = a ++ (b ++ c))%string.
Proof.
  induction a as [|x a IH]; [reflexivity|].
  change (String x ((a ++ b) ++ c) = String x (a ++ (b ++ c)))%string.
  f_equal. exact IH.
Qed.

Lemma string_app_nil_r (a : string) : (a ++ EmptyString)%string = a.
Proof.
  induction a as [|x a IH]; [reflexivity|].
  change (String x (a ++ EmptyString) = String x a)%string.
  f_equal. exact IH.
Qed.

Lemma concat_letter_app (w : string) (o : option string) :
  concat_letter w o = (w ++ concat_letter EmptyString o)%string.
Proof. reflexivity. Qed.

(** ** Loops *)

Lemma forOf_In_inv {A : Type} (l : list A) (body : A -> M unit) (R : Mem -> Mem -> Prop) :
  (forall m, R m m) ->
  (forall a b c, R a b -> R b c -> R a c) ->
  (forall x, In x l -> forall m u m', body x m = Ok (u, m') -> R m m') ->
  forall m u m', forOf l body m = Ok (u, m') -> R m m'.
Proof.
  intros Hrefl Htrans. induction l as [|x l IH]; intros Hbody m u m' H; simpl in H.
  - injection H as _ <-. apply Hrefl.
  - apply M_bind_Ok in H as (u1 & m1 & H1 & H2).
    eapply Htrans.
    + eapply Hbody; [left; reflexivity | eassumption].
    + eapply IH; [|eassumption]. intros y Hy. apply Hbody. right. assumption.
Qed.

(** ** The words a search collects *)

(** Every word that a frame adds is the word of the frame extended along a
    trail of cells. *)
Lemma backTrack_sound fuel : forall w c d m u m',
  backTrack fuel w c d foundWord m = Ok (u, m') ->
  forall x, In x (words m') ->
    In x (words m) \/
    exists cs, trail (this m) c (path m) cs /\
               x = (w ++ spell (board (this m)) cs)%string.
Proof.
  induction fuel as [|fuel IH]; intros w c d m u m' H; [discriminate|].
  rewrite backTrack_S in H.
  apply M_bind_Ok in H as (isWord & m1 & H1 & H).
  apply isWordHere_Ok in H1 as [-> Hword].
  apply M_bind_Ok in H as (u2 & m2 & H2 & H).
  apply M_bind_Ok in H as (adjacent & m3 & H3 & H).
  injection H3 as <- <-.
  set (g := this m). set (p := path m).
  set (Q := fun x => exists cs, trail g c p cs /\ x = (w ++ spell (board g) cs)%string).
  assert (P2 : this m2 = g /\ path m2 = p /\
               forall x, In x (words m2) -> In x (words m) \/ Q x).
  { destruct isWord.
    - rewrite foundWord_run in H2. injection H2 as _ <-.
      destruct (indexOf (words m) w =? -1); simpl; [|auto].
      split; [reflexivity|]. split; [reflexivity|].
      intros x [Hx | [<- | []]]%in_app_or; [auto|].
      right. exists []. split; [exact I|]. simpl. rewrite string_app_nil_r. reflexivity.
    - injection H2 as _ <-. auto. }
  destruct P2 as (Ht2 & Hp2 & Hw2).
  set (R := fun a b : Mem => this a = g -> path a = p ->
              this b = g /\ path b = p /\
              forall x, In x (words b) -> In x (words a) \/ Q x).
  assert (HR : R m2 m').
  { eapply (forOf_In_inv _ _ R); [| | |exact H].
    - intros a Ha1 Ha2. auto.
    - intros a b e Hab Hbe Ha1 Ha2.
      destruct (Hab Ha1 Ha2) as (Hb1 & Hb2 & Hb3).
      destruct (Hbe Hb1 Hb2) as (He1 & He2 & He3).
      split; [assumption|]. split; [assumption|].
      intros x Hx. destruct (He3 x Hx) as [Hx' | ?]; auto.
    - intros x0 Hx0 a ua a' Hv Ha1 Ha2. rewrite Ht2 in Hx0. fold g in Hx0.
      rewrite visit_run in Hv.
      destruct (indexOf (path a) x0 =? -1) eqn:Hi; simpl in Hv;
        [|injection Hv as _ <-; auto].
      apply indexOf_eqb in Hi. rewrite Ha2 in Hi.
      destruct (hasSubString _ _ false) as [[|]| |]; try discriminate;
        [|injection Hv as _ <-; auto].
      destruct (backTrack fuel _ x0 (d + 1) foundWord (pushed a x0))
        as [[u5 m5]| |] eqn:H5; try discriminate.
      injection Hv as _ <-.
      pose proof (backTrack_post _ _ _ _ _ _ _ H5) as [Ht5 Hp5 _ _ _].
      simpl in Ht5, Hp5.
      split; [simpl; congruence|]. split.
      { simpl. rewrite Hp5, removelast_last. assumption. }
      intros x Hx. simpl in Hx.
      destruct (IH _ _ _ _ _ _ H5 x Hx) as [Hx' | (cs & Htr & ->)]; [auto|].
      right. exists (x0 :: cs). simpl in Htr. rewrite Ha1, Ha2 in Htr.
      split; [simpl; auto|].
      simpl. rewrite Ha1. fold g.
      rewrite concat_letter_app, string_app_assoc. reflexivity. }
  destruct (HR Ht2 Hp2) as (_ & _ & Hw').
  intros x Hx. destruct (Hw' x Hx) as [Hx' | ?]; [|auto].
  destruct (Hw2 x Hx'); auto.
Qed.

(** Every whole word of three letters or more that extends the word of a
    frame along a trail of cells is collected. *)
Lemma backTrack_complete fuel : forall w c d m u m' cs,
  backTrack fuel w c d foundWord m = Ok (u, m') ->
  trail (this m) c (path m) cs ->
  (3 <= String.length (w ++ spell (board (this m)) cs))%nat ->
  hasSubString (trie (this m)) (w ++ spell (board (this m)) cs) true = Ok true ->
  In (w ++ spell (board (this m)) cs)%string (words m').
Proof.
  induction fuel as [|fuel IH]; intros w c d m u m' cs H Htr Hlen Hq; [discriminate|].
  destruct cs as [|x0 cs].
  { simpl in Hlen, Hq |- *. rewrite string_app_nil_r in *.
    eapply backTrack_emits; eassumption. }
  simpl in Htr. destruct Htr as (Hadj & Hnin & Htr).
  rewrite backTrack_S in H.
  apply M_bind_Ok in H as (isWord & m1 & H1 & H).
  apply isWordHere_Ok in H1 as [-> Hword].
  apply M_bind_Ok in H as (u2 & m2 & H2 & H).
  assert (P2 : post m m2).
  { destruct isWord.
    - destruct Hword as [Hlen' Hq']; [reflexivity|]. eapply foundWord_post; eassumption.
    - injection H2 as _ <-. apply post_refl. }
  apply M_bind_Ok in H as (adjacent & m3 & H3 & H).
  injection H3 as <- <-. rewrite (post_this _ _ P2) in H.
  destruct (in_split _ _ Hadj) as (l1 & l2 & Hsplit). rewrite Hsplit in H.
  rewrite forOf_app in H.
  apply M_bind_Ok in H as (u3 & m3 & H3 & H). simpl in H.
  apply M_bind_Ok in H as (u4 & m4 & H4 & H).
  assert (Hrec : forall w' c' d' m0 u0 m0',
             backTrack fuel w' c' d' foundWord m0 = Ok (u0, m0') -> post m0 m0').
  { intros. eapply backTrack_post. eassumption. }
  assert (P3 : post m2 m3).
  { eapply forOf_post; [|exact H3]. intros y m0 u0 m0'. apply visit_post. exact Hrec. }
  assert (P5 : post m4 m').
  { eapply forOf_post; [|exact H]. intros y m0 u0 m0'. apply visit_post. exact Hrec. }
  pose proof (post_trans _ _ _ P2 P3) as P. destruct P as [Ht3 Hp3 _ _ _].
  simpl in Hlen, Hq |- *.
  rewrite <- string_app_assoc, <- concat_letter_app in Hlen, Hq |- *.
  rewrite visit_run, Hp3, Ht3 in H4.
  apply indexOf_In in Hnin. rewrite Hnin in H4. simpl in H4.
  rewrite (hasSubString_prefix _ _ _ _ Hq) in H4.
  destruct (backTrack fuel _ x0 (d + 1) foundWord (pushed m3 x0))
    as [[u5 m5]| |] eqn:H5; try discriminate.
  injection H4 as Hm4. subst m4.
  apply IH with (cs := cs) in H5; simpl; rewrite ?Ht3, ?Hp3; try assumption.
  simpl in H5. rewrite Ht3 in H5.
  destruct (post_grow _ _ P5) as [new ->]. apply in_or_app. left. exact H5.
Qed.

(** ** Trails and chains *)

Lemma trail_iff (g : BoggleGame) (cs : list Z) : forall c p,
  trail g c p cs <->
  chain g c cs /\ List.NoDup cs /\ (forall x, In x cs -> ~ In x p).
Proof.
  induction cs as [|x cs IH]; intros c p; simpl.
  - split; [intros _|auto]. split; [exact I|]. split; [constructor | intros x []].
  - rewrite IH. split.
    + intros (Hadj & Hnp & Hch & Hnd & Hdis). split; [auto|]. split.
      * constructor; [|assumption]. intros Hin. apply (Hdis x Hin).
        apply in_or_app. right. left. reflexivity.
      * intros y [<- | Hy]; [assumption|]. intros Hyp. apply (Hdis y Hy).
        apply in_or_app. left. assumption.
    + intros ((Hadj & Hch) & Hnd & Hdis). inversion Hnd as [|? ? Hx Hnd']; subst.
      split; [assumption|]. split; [apply Hdis; left; reflexivity|].
      split; [assumption|]. split; [assumption|].
      intros y Hy [Hyp | [<- | []]]%in_app_or; [|contradiction].
      apply (Hdis y); [right; assumption | assumption].
Qed.

Lemma chain_valid (g : BoggleGame) (cs : list Z) : forall c,
  chain g c cs -> forall x, In x cs -> isValidCell g x = true.
Proof.
  induction cs as [|y cs IH]; intros c Hch x Hx; [destruct Hx|].
  destruct Hch as [Hadj Hch]. destruct Hx as [<- | Hx].
  - eapply getAdjacent_valid. eassumption.
  - eapply IH; eassumption.
Qed.

(** A chain without repetition is no longer than the board. *)
Lemma chain_length (g : BoggleGame) (c : Z) (cs : list Z) :
  chain g c cs -> List.NoDup cs -> (length cs <= length (board g))%nat.
Proof.
  intros Hch Hnd.
  replace (length (board g)) with (length (cells g))
    by (unfold cells; rewrite length_map, length_seq; reflexivity).
  apply NoDup_incl_length; [assumption|].
  intros x Hx. apply isValidCell_cells. eapply chain_valid; eassumption.
Qed.

Lemma getAdjacent_ext (g g' : BoggleGame) (i : Z) :
  width g = width g' -> board g = board g' -> getAdjacent g i = getAdjacent g' i.
Proof. intros Hw Hb. unfold getAdjacent, isValidCell. rewrite Hw, Hb. reflexivity. Qed.

Lemma chain_ext (g g' : BoggleGame) (cs : list Z) : forall c,
  width g = width g' -> board g = board g' -> chain g c cs -> chain g' c cs.
Proof.
  induction cs as [|x cs IH]; intros c Hw Hb; simpl; [auto|].
  rewrite (getAdjacent_ext g g' c Hw Hb). intros [Hadj Hch]. auto.
Qed.

Lemma traced_ext (g g' : BoggleGame) (x : string) :
  width g = width g' -> board g = board g' -> traced g x -> traced g' x.
Proof.
  intros Hw Hb (i & cs & Hv & Hch & Hnd & ->).
  exists i, cs. unfold isValidCell in *. rewrite <- Hb.
  split; [assumption|]. split; [eapply chain_ext; eassumption | auto].
Qed.

(** ** The words [solve] returns *)

Lemma indexed_In (b : list string) (l : string) (i : Z) :
  In (l, i) (indexed b) <-> exists k, b !! k = Some l /\ i = Z.of_nat k.
Proof.
  unfold indexed. rewrite <- list_elem_of_In, elem_of_lookup_imap. split.
  - intros (k & y & [= -> ->] & Hk). eauto.
  - intros (k & Hk & ->). eauto.
Qed.

Lemma board_at_nat (b : list string) (k : nat) : board_at b (Z.of_nat k) = b !! k.
Proof.
  unfold board_at. destruct (0 <=? Z.of_nat k) eqn:E.
  - rewrite Nat2Z.id. reflexivity.
  - apply Z.leb_gt in E. lia.
Qed.

(** The words of [solve()] are the whole words of the trie, of three
    letters or more, that a trail from some cell spells. *)
Lemma solve_words (m : Mem) (ws : list string) (m' : Mem) :
  solve m = Ok (ws, m') ->
  forall x, In x ws <->
    (3 <= String.length x)%nat /\ hasSubString (trie (this m)) x true = Ok true /\
    exists k l cs, board (this m) !! k = Some l /\
                   trail (this m) (Z.of_nat k) [] cs /\
                   x = (l ++ spell (board (this m)) cs)%string.
Proof.
  intros Hs x. split.
  - intros Hx. destruct (solve_post _ _ _ Hs) as (_ & _ & _ & Hw).
    destruct (Hw x Hx) as [Hlen Hq]. split; [assumption|]. split; [assumption|].
    unfold solve in Hs. rewrite solve_fuel_run in Hs.
    destruct (forOf _ _ (emptied m)) as [[u m1]| |] eqn:H; try discriminate.
    injection Hs as <- <-.
    set (g := this m) in *.
    set (Q := fun x => exists k l cs, board g !! k = Some l /\
                trail g (Z.of_nat k) [] cs /\ x = (l ++ spell (board g) cs)%string).
    set (R := fun a b : Mem => this a = g ->
                this b = g /\ forall x, In x (words b) -> In x (words a) \/ Q x).
    assert (HR : R (emptied m) m1).
    { eapply (forOf_In_inv _ _ R); [| | |exact H].
      - intros a Ha. auto.
      - intros a b e Hab Hbe Ha. destruct (Hab Ha) as [Hb1 Hb2].
        destruct (Hbe Hb1) as [He1 He2]. split; [assumption|].
        intros y Hy. destruct (He2 y Hy) as [Hy' | ?]; auto.
      - intros [l i] Hli a ua a' Hv Ha. simpl in Hli. fold g in Hli.
        apply indexed_In in Hli as (k & Hk & ->).
        rewrite start_run in Hv.
        pose proof (backTrack_post _ _ _ _ _ _ _ Hv) as [Ht _ _ _ _].
        simpl in Ht. split; [congruence|].
        intros y Hy. destruct (backTrack_sound _ _ _ _ _ _ _ Hv y Hy)
          as [Hy' | (cs & Htr & ->)]; [auto|].
        right. simpl in Htr. rewrite Ha in Htr. exists k, l, cs.
        simpl. rewrite Ha. auto. }
    destruct (HR eq_refl) as [_ HQ]. destruct (HQ x Hx) as [[] | HQx]. exact HQx.
  - intros (Hlen & Hq & k & l & cs & Hk & Htr & ->).
    unfold solve in Hs. rewrite solve_fuel_run in Hs.
    destruct (forOf _ _ (emptied m)) as [[u m1]| |] eqn:H; try discriminate.
    injection Hs as <- <-.
    assert (Hin : In (l, Z.of_nat k) (indexed (board (this m))))
      by (apply indexed_In; eauto).
    destruct (in_split _ _ Hin) as (l1 & l2 & Hsplit). rewrite Hsplit in H.
    rewrite forOf_app in H.
    apply M_bind_Ok in H as (u3 & m3 & H3 & H). simpl in H.
    apply M_bind_Ok in H as (u4 & m4 & H4 & H).
    apply starts_post in H3. apply starts_post in H.
    destruct H3 as [Ht3 _ _ _ _]. simpl in Ht3.
    rewrite start_run in H4.
    apply backTrack_complete with (cs := cs) in H4; simpl; rewrite ?Ht3; try assumption.
    simpl in H4. rewrite Ht3 in H4.
    destruct (post_grow _ _ H) as [new Hnew]. simpl in Hnew. rewrite Hnew.
    apply in_or_app. left. exact H4.
Qed.

Lemma traced_trail (g : BoggleGame) (x : string) :
  traced g x <->
  exists k l cs, board g !! k = Some l /\ trail g (Z.of_nat k) [] cs /\
                 x = (l ++ spell (board g) cs)%string.
Proof.
  split.
  - intros (i & cs & Hv & Hch & Hnd & ->). apply isValidCell_spec in Hv.
    destruct (lookup_lt_is_Some_2 (board g) (Z.to_nat i)) as [l Hl]; [lia|].
    exists (Z.to_nat i), l, cs. split; [assumption|].
    rewrite Z2Nat.id by lia. split.
    + apply trail_iff. split; [assumption|]. split; [assumption | intros y _ []].
    + simpl. replace i with (Z.of_nat (Z.to_nat i)) at 1 by lia.
      rewrite board_at_nat, Hl. reflexivity.
  - intros (k & l & cs & Hk & Htr & ->). apply trail_iff in Htr as (Hch & Hnd & _).
    exists (Z.of_nat k), cs. split.
    + apply isValidCell_spec. apply lookup_lt_Some in Hk. lia.
    + split; [assumption|]. split; [assumption|].
      simpl. rewrite board_at_nat, Hk. reflexivity.
Qed.

(** [new BoggleGame(...).solve()] returns, and returns the traced words of
    three letters or more that the dictionary holds, without case. *)
Lemma play_words (w h : Z) (b d : list string) :
  exists t ws,
    built t d /\
    BoggleGame_new w h b d =
      Ok {| width := w; height := h; board := b; dictionary := d; trie := t |} /\
    play w h b d = Ok ws /\
    forall x, In x ws <->
      (3 <= String.length x)%nat /\
      (exists e, In e d /\ toLowerCase e = toLowerCase x) /\
      traced {| width := w; height := h; board := b; dictionary := d; trie := t |} x.
Proof.
  destruct (BoggleGame_new_built w h b d) as (t & Hg & Hb).
  set (g := {| width := w; height := h; board := b; dictionary := d; trie := t |}) in *.
  destruct (solve_total {| this := g; path := []; words := [] |} d Hb) as (ws & m' & Hs).
  exists t, ws. split; [assumption|]. split; [assumption|]. split.
  { rewrite (play_run _ _ _ _ _ Hg). fold g. rewrite Hs. reflexivity. }
  intros x. rewrite (solve_words _ _ _ Hs x).
  change (this {| this := g; path := []; words := [] |}) with g.
  change (trie g) with t. split.
  - intros (Hlen & Hq & Htr). split; [assumption|]. split.
    + apply (built_sound t d x Hb Hq).
    + apply traced_trail. assumption.
  - intros (Hlen & (e & He & Hl) & Htr). split; [assumption|]. split.
    + rewrite <- (hasSubString_case t e x true Hl).
      apply built_complete with d; assumption.
    + apply traced_trail. assumption.
Qed.

(** ** C5: each word once *)

(** The board b, a over a, c: the word bac is spelled along the cells
    0, 1, 3 and along the cells 0, 2, 3. *)
Example baac_two_paths :
  spell ["b"; "a"; "a"; "c"] [0; 1; 3] = "bac" /\
  spell ["b"; "a"; "a"; "c"] [0; 2; 3] = "bac".
Proof. split; reflexivity. Qed.

(** C5. For every board and dictionary, [solve()] returns a list without
    duplicates. A word of three letters or more that the dictionary holds,
    without case, and that some path of cells spells on the board, whether
    one path or several and from whichever starting cells, is in the list
    exactly once; so is each word of the list. [foundWord] on a word
    already collected changes nothing. *)
Theorem solve_no_duplicates (w h : Z) (b d : list string) :
  (exists g ws,
     BoggleGame_new w h b d = Ok g /\ play w h b d = Ok ws /\ List.NoDup ws /\
     Forall (fun x => count_occ string_dec ws x = 1%nat) ws /\
     (forall x e, In e d -> toLowerCase e = toLowerCase x ->
                  (3 <= String.length x)%nat -> traced g x ->
                  count_occ string_dec ws x = 1%nat)) /\
  (forall x m, In x (words m) -> foundWord x m = Ok (tt, m)).
Proof.
  split.
  - destruct (play_words w h b d) as (t & ws & Hb & Hg & Hp & Hw).
    destruct (play_spec w h b d) as (t1 & ws1 & _ & Hp1 & Hnd & _).
    assert (ws1 = ws) as -> by congruence.
    eexists. exists ws. split; [exact Hg|]. split; [exact Hp|]. split; [exact Hnd|].
    split.
    + apply List.Forall_forall. apply NoDup_count_occ'. assumption.
    + intros x e He Hl Hlen Htr. apply NoDup_count_occ'; [assumption|].
      apply Hw. eauto.
  - intros x m Hx. rewrite foundWord_run.
    destruct (indexOf (words m) x =? -1) eqn:Hi; [|reflexivity].
    apply indexOf_eqb in Hi. contradiction.
Qed.

Lemma solve_no_duplicates_witness :
  (exists ws, play 2 2 ["b"; "a"; "a"; "c"] ["bac"] = Ok ws /\
              count_occ string_dec ws "bac" = 1%nat) /\
  foundWord "bac" {| this := board3x3; path := []; words := ["bac"] |}
  = Ok (tt, {| this := board3x3; path := []; words := ["bac"] |}).
Proof.
  destruct (solve_no_duplicates 2 2 ["b"; "a"; "a"; "c"] ["bac"])
    as [(g & ws & Hg & Hp & _ & _ & Hone) Hfound].
  split.
  - exists ws. split; [exact Hp|].
    apply (Hone "bac" "bac"); [left; reflexivity | reflexivity | simpl; lia |].
    destruct (BoggleGame_new_built 2 2 ["b"; "a"; "a"; "c"] ["bac"]) as (t & Hg' & _).
    rewrite Hg' in Hg. injection Hg as <-.
    exists 0, [1; 3]. split; [reflexivity|]. split; [simpl; tauto|].
    split; [|reflexivity].
    constructor; [intros [E | []]; discriminate|]. constructor; [intros []|constructor].
  - apply Hfound. simpl. auto.
Defined.

(** The word bac of the board b, a over a, c, found along two paths and
    returned once. *)
Example baac_once : play 2 2 ["b"; "a"; "a"; "c"] ["bac"] = Ok ["bac"].
Proof. vm_compute. reflexivity. Qed.

(** Every word that [solve()] returns is spelled on the board: by a cell,
    then a chain of neighbours in which no cell comes twice, so by one cell
    more than the board has at most. *)
Theorem solve_traced (w h : Z) (b d : list string) :
  exists g ws,
    BoggleGame_new w h b d = Ok g /\ play w h b d = Ok ws /\
    Forall (fun x => exists i cs,
              isValidCell g i = true /\ chain g i cs /\ List.NoDup cs /\
              (length cs <= length b)%nat /\ x = spell b (i :: cs)) ws.
Proof.
  destruct (play_words w h b d) as (t & ws & Hb & Hg & Hp & Hw).
  eexists. exists ws. split; [exact Hg|]. split; [exact Hp|].
  apply List.Forall_forall. intros x Hx.
  destruct (proj1 (Hw x) Hx) as (_ & _ & i & cs & Hv & Hch & Hnd & ->).
  exists i, cs. split; [assumption|]. split; [assumption|]. split; [assumption|].
  split; [|reflexivity]. apply (chain_length _ _ _ Hch Hnd).
Qed.

(** Every word of three letters or more that the dictionary holds, without
    case, and that is spelled on the board by a cell followed by a chain of
    neighbours in which no cell comes twice, is returned by [solve()]. *)
Theorem solve_finds_all (w h : Z) (b d : list string) :
  exists g ws,
    BoggleGame_new w h b d = Ok g /\ play w h b d = Ok ws /\
    forall x e, In e d -> toLowerCase e = toLowerCase x ->
                (3 <= String.length x)%nat -> traced g x -> In x ws.
Proof.
  destruct (play_words w h b d) as (t & ws & Hb & Hg & Hp & Hw).
  eexists. exists ws. split; [exact Hg|]. split; [exact Hp|].
  intros x e He Hl Hlen Htr. apply Hw. eauto.
Qed.

Lemma solve_finds_all_witness :
  exists ws, play 2 2 abcd ["Bad"; "cab"] = Ok ws /\ In "bad" ws.
Proof.
  destruct (solve_finds_all 2 2 abcd ["Bad"; "cab"]) as (g & ws & Hg & Hp & H).
  exists ws. split; [exact Hp|].
  apply (H "bad" "Bad"); [left; reflexivity | reflexivity | simpl; lia |].
  destruct (BoggleGame_new_built 2 2 abcd ["Bad"; "cab"]) as (t & Hg' & _).
  rewrite Hg' in Hg. injection Hg as <-.
  exists 1, [0; 3]. split; [reflexivity|]. split; [simpl; tauto|].
  split; [|reflexivity].
  constructor; [intros [E | []]; discriminate|]. constructor; [intros []|constructor].
Defined.

(** ** The dictionary and the board at their limits *)

Lemma longEnough_In (d : list string) (e : string) :
  In e (longEnough d) <-> In e d /\ (3 <= String.length e)%nat.
Proof. unfold longEnough. rewrite filter_In, Nat.leb_le. reflexivity. Qed.

(** Leaving the words of fewer than three letters out of the dictionary, as
    [processData] does, changes nothing to the words that [solve()]
    returns. *)
Theorem longEnough_same_words (w h : Z) (b d : list string) :
  exists ws ws',
    play w h b d = Ok ws /\ play w h b (longEnough d) = Ok ws' /\
    forall x, In x ws <-> In x ws'.
Proof.
  destruct (play_words w h b d) as (t & ws & _ & _ & Hp & Hw).
  destruct (play_words w h b (longEnough d)) as (t' & ws' & _ & _ & Hp' & Hw').
  exists ws, ws'. split; [assumption|]. split; [assumption|].
  intros x. rewrite Hw, Hw'. split.
  - intros (Hlen & (e & He & Hl) & Htr). split; [assumption|]. split.
    + exists e. split; [|assumption]. apply longEnough_In. split; [assumption|].
      rewrite <- (toLowerCase_length e), Hl, toLowerCase_length. assumption.
    + eapply traced_ext; [| |eassumption]; reflexivity.
  - intros (Hlen & (e & He & Hl) & Htr). split; [assumption|]. split.
    + exists e. split; [|assumption]. apply longEnough_In in He. tauto.
    + eapply traced_ext; [| |eassumption]; reflexivity.
Qed.

(** A board without cells and a dictionary without words both give an
    empty list, whatever the other one holds. *)
Theorem solve_nothing_to_find (w h : Z) :
  (forall d, play w h [] d = Ok []) /\ (forall b, play w h b [] = Ok []).
Proof.
  split.
  - intros d. destruct (BoggleGame_new_built w h [] d) as (t & Hg & _).
    rewrite (play_run _ _ _ _ _ Hg). reflexivity.
  - intros b. destruct (play_words w h b []) as (t & ws & _ & _ & Hp & Hw).
    rewrite Hp. f_equal. destruct ws as [|x ws]; [reflexivity|].
    destruct (proj1 (Hw x) (or_introl eq_refl)) as (_ & (e & [] & _) & _).
Qed.

(** ** The path and the depth of a search *)







(** ** What the search reads of the game *)

Lemma bind_alike {A B : Type} (c c' : M A) (f f' : A -> M B) (m m' : Mem) :
  alike_result (c m) (c' m') ->
  (forall a m1 m1', alike m1 m1' -> alike_result (f a m1) (f' a m1')) ->
  alike_result ((c ≫= f) m) ((c' ≫= f') m').
Proof.
  intros Hc Hf. unfold mbind, M_bind.
  destruct (c m) as [[a m1]| |], (c' m') as [[a' m1']| |]; simpl in Hc; try contradiction;
    try exact I.
  destruct Hc as [<- Hm]. apply Hf. assumption.
Qed.

Lemma forOf_alike {A : Type} (l : list A) (body : A -> M unit) :
  (forall x m m', alike m m' -> alike_result (body x m) (body x m')) ->
  forall m m', alike m m' -> alike_result (forOf l body m) (forOf l body m').
Proof.
  intros Hbody. induction l as [|x l IH]; intros m m' Hm; simpl.
  - split; [reflexivity | assumption].
  - apply bind_alike; [apply Hbody; assumption|]. intros _ m1 m1'. apply IH.
Qed.

Lemma alike_pushed m m' x : alike m m' -> alike (pushed m x) (pushed m' x).
Proof.
  intros (Hw & Hb & Ht & Hp & Hws). unfold alike. simpl. rewrite Hp. auto.
Qed.

Lemma alike_popped m m' : alike m m' -> alike (popped m) (popped m').
Proof.
  intros (Hw & Hb & Ht & Hp & Hws). unfold alike. simpl. rewrite Hp. auto.
Qed.

Lemma visit_alike rec w d x m m' :
  (forall w' c' d' m1 m1', alike m1 m1' ->
     alike_result (rec w' c' d' foundWord m1) (rec w' c' d' foundWord m1')) ->
  alike m m' ->
  alike_result (visit rec w d foundWord x m) (visit rec w d foundWord x m').
Proof.
  intros Hrec Hm. rewrite !visit_run.
  pose proof Hm as (Hw & Hb & Ht & Hp & Hws). rewrite <- Hp, <- Hb, <- (Ht _ false).
  destruct (negb (indexOf (path m) x =? -1)); [split; [reflexivity | assumption]|].
  destruct (hasSubString _ _ false) as [[|]| |]; try exact I;
    [|split; [reflexivity | assumption]].
  pose proof (Hrec (concat_letter w (board_at (board (this m)) x)) x d _ _
                (alike_pushed m m' x Hm)) as Hr.
  destruct (rec _ x d foundWord (pushed m x)) as [[u1 m1]| |],
           (rec _ x d foundWord (pushed m' x)) as [[u1' m1']| |];
    simpl in Hr; try contradiction; try exact I.
  destruct Hr as [_ Hr]. split; [reflexivity | apply alike_popped; assumption].
Qed.

Lemma getAdjacent_alike m m' c :
  alike m m' -> getAdjacent (this m) c = getAdjacent (this m') c.
Proof. intros (Hw & Hb & _). apply getAdjacent_ext; assumption. Qed.

(** [backTrack] reads the width, the length and the letters of the board,
    the answers of the trie, the path and the words, and nothing else. *)
Lemma backTrack_alike fuel : forall w c d m m',
  alike m m' ->
  alike_result (backTrack fuel w c d foundWord m) (backTrack fuel w c d foundWord m').
Proof.
  induction fuel as [|fuel IH]; intros w c d m m' Hm; [exact I|].
  rewrite !backTrack_S.
  pose proof Hm as (Hw & Hb & Ht & Hp & Hws).
  apply bind_alike.
  { rewrite !isWordHere_run, <- (Ht _ true).
    destruct (3 <=? String.length w)%nat; [|split; [reflexivity | assumption]].
    destruct (hasSubString _ _ true); try exact I. split; [reflexivity | assumption]. }
  intros isWord m1 m1' Hm1. apply bind_alike.
  { destruct isWord; [|split; [reflexivity | assumption]].
    rewrite !foundWord_run. destruct Hm1 as (Hw1 & Hb1 & Ht1 & Hp1 & Hws1).
    rewrite <- Hws1.
    destruct (indexOf (words m1) w =? -1); (split; [reflexivity|]);
      unfold alike; simpl; rewrite ?Hws1; auto 10. }
  intros _ m2 m2' Hm2. apply bind_alike.
  { unfold this_getAdjacent. simpl. split; [apply getAdjacent_alike | ]; assumption. }
  intros adjacent m3 m3' Hm3. apply forOf_alike; [|assumption].
  intros x a a' Ha. apply visit_alike; [|assumption].
  intros w' c' d' a1 a1'. apply IH.
Qed.

Lemma start_alike fuel (si : string * Z) m m' :
  width (this m) = width (this m') -> board (this m) = board (this m') ->
  same_answers (trie (this m)) (trie (this m')) -> words m = words m' ->
  alike_result (start fuel si m) (start fuel si m').
Proof.
  intros Hw Hb Ht Hws. destruct si as [s i]. rewrite !start_run.
  apply backTrack_alike. unfold alike. simpl. auto 10.
Qed.

(** Two games with the same width and board, and with tries that answer
    alike, return the same from [solve()]. *)
Lemma solve_alike (m m' : Mem) :
  width (this m) = width (this m') -> board (this m) = board (this m') ->
  same_answers (trie (this m)) (trie (this m')) ->
  returned (solve m) = returned (solve m').
Proof.
  intros Hw Hb Ht. unfold solve. rewrite !solve_fuel_run, <- Hb.
  destruct (indexed (board (this m))) as [|si l]; [reflexivity|].
  assert (Hl : alike_result
                 (forOf (si :: l) (start (S (length (board (this m))))) (emptied m))
                 (forOf (si :: l) (start (S (length (board (this m))))) (emptied m'))).
  { simpl. apply bind_alike; [apply start_alike; simpl; auto|].
    intros _ a a' Ha. apply forOf_alike; [|assumption].
    intros x b b' (Hw1 & Hb1 & Ht1 & Hp1 & Hws1). apply start_alike; assumption. }
  destruct (forOf _ _ (emptied m)) as [[u1 m1]| |],
           (forOf _ _ (emptied m')) as [[u1' m1']| |];
    simpl in Hl |- *; try contradiction; try reflexivity.
  destruct Hl as [_ (_ & _ & _ & _ & ->)]. reflexivity.
Qed.

Lemma same_answers_built (t t' : Trie) (d d' : list string) :
  built t d -> built t' d' ->
  (forall x, (exists e, In e d /\ toLowerCase e = x) <->
             (exists e, In e d' /\ toLowerCase e = x)) ->
  same_answers t t'.
Proof.
  intros Hb Hb' Hd q [|].
  - destruct (built_whole_word t d q Hb) as (b & Hq & Hiff).
    destruct (built_whole_word t' d' q Hb') as (b' & Hq' & Hiff').
    rewrite Hq, Hq'. f_equal. apply eq_true_iff_eq.
    rewrite Hiff, Hiff'. apply Hd.
  - destruct (built_prefix_query t d q Hb) as (b & Hq & Hiff).
    destruct (built_prefix_query t' d' q Hb') as (b' & Hq' & Hiff').
    rewrite Hq, Hq'. f_equal. apply eq_true_iff_eq.
    rewrite Hiff, Hiff'. split.
    + intros [He | (e & s & He & Hl)]; [auto|]. right.
      destruct (proj1 (Hd (toLowerCase e)) (ex_intro _ e (conj He eq_refl)))
        as (e' & He' & Hl').
      exists e', s. split; [assumption | congruence].
    + intros [He | (e & s & He & Hl)]; [auto|]. right.
      destruct (proj2 (Hd (toLowerCase e)) (ex_intro _ e (conj He eq_refl)))
        as (e' & He' & Hl').
      exists e', s. split; [assumption | congruence].
Qed.

(** [solve()] depends on the dictionary through the set of its words
    without case only: two dictionaries with the same words once
    lower-cased, in any order and any number of copies, give the same list
    in the same order. *)
Theorem dictionary_as_set (w h : Z) (b d d' : list string) :
  (forall x, (exists e, In e d /\ toLowerCase e = x) <->
             (exists e, In e d' /\ toLowerCase e = x)) ->
  play w h b d = play w h b d'.
Proof.
  intros Hd.
  destruct (BoggleGame_new_built w h b d) as (t & Hg & Hb).
  destruct (BoggleGame_new_built w h b d') as (t' & Hg' & Hb').
  rewrite (play_run _ _ _ _ _ Hg), (play_run _ _ _ _ _ Hg').
  apply solve_alike; simpl; try reflexivity.
  eapply same_answers_built; eassumption.
Qed.

Lemma dictionary_as_set_witness :
  play 2 2 abcd ["Bad"; "cab"] = play 2 2 abcd ["CAB"; "bad"; "cab"].
Proof.
  apply dictionary_as_set. intros x. split.
  - intros (e & [<- | [<- | []]] & <-).
    + exists "bad". split; [right; left|]; reflexivity.
    + exists "cab". split; [right; right; left|]; reflexivity.
  - intros (e & [<- | [<- | [<- | []]]] & <-).
    + exists "cab". split; [right; left|]; reflexivity.
    + exists "Bad". split; [left|]; reflexivity.
    + exists "cab". split; [right; left|]; reflexivity.
Defined.

(** [solve()] never reads the height of the game: games that differ in
    their height only return the same list. *)
Theorem height_unused (w h h' : Z) (b d : list string) :
  play w h b d = play w h' b d.
Proof.
  destruct (BoggleGame_new_built w h b d) as (t & Hg & Hb).
  destruct (BoggleGame_new_built w h' b d) as (t' & Hg' & Hb').
  rewrite (play_run _ _ _ _ _ Hg), (play_run _ _ _ _ _ Hg').
  apply solve_alike; simpl; try reflexivity.
  eapply same_answers_built; [eassumption | eassumption | reflexivity].
Qed.

(** ** Letters above the 7-bit characters *)

(** The capitals 192..214 and 216..222 have small letters; 215 and 223 are
    left as they are. *)
Example lower_ascii_latin :
  map (fun n => nat_of_ascii (lower_ascii (ascii_of_nat n)))
      [65; 90; 91; 192; 214; 215; 216; 222; 223; 224]%nat
  = [97; 122; 91; 224; 246; 215; 248; 254; 223; 224]%nat.
Proof. reflexivity. Qed.

(** A board that holds the small letter 224 and a dictionary that holds the
    capital 192: the word is found, and returned as the board spells it. *)
Example latin_board :
  play 3 1 [String (ascii_of_nat 224) EmptyString; "b"; "c"]
           [String (ascii_of_nat 192) "bc"]
  = Ok [String (ascii_of_nat 224) "bc"].
Proof. vm_compute. reflexivity. Qed.
